(** * TikTok feed audit: capture coordinator, normaliser and browsing loop

    A shallow embedding of the capture-and-orchestration pipeline of the
    repository:

    - [scraper/tiktok_network_interceptor.py]: the request/response event
      handlers, the body-fetch loop and the response normaliser of
      [handle_response], and the followed-users store;
    - [scraper/video_action_handler.py]: [VideoInteractor.follow_user],
      [like] and [watch_video];
    - [scraper/fyp_browser.py]: [browse_fyp] with its skip loop, the
      watch-time clamp and the random like / follow / watch steps.

    Conventions.  Python sets of identifiers are [gset string], dictionaries
    keyed by identifiers are [gmap string _].  Python numbers (ints and
    floats of the configuration, durations, coefficients) are exact
    rationals [Q]; every comparison and arithmetic operation of the source
    is transcribed operator by operator, and the theorems rest on the
    comparisons and on which expression is computed, not on identities of
    rational arithmetic that rounding would break.  Strings are byte
    strings holding ASCII text, on which [Py.lower] and [Py.strip] agree
    with [str.lower] and [str.strip].  JSON objects are records typed
    as the endpoint delivers them.  What the browser, the queue and the file
    system answer is an explicit oracle argument, what the code does to
    them is recorded in a trace of effects, and an exception or a call that
    never returns is an explicit outcome.  Theorems marked C1 to C10 settle
    the corresponding properties of the specification. *)

From Stdlib Require Import Ascii String QArith Qabs.
From stdpp Require Import base gmap sets list strings.

Open Scope string_scope.
Set Warnings "-clear-no-such-hyp".

(* ===================================================================== *)
(** * Python string helpers                                               *)
(* ===================================================================== *)

Module Py.

(** [str.lower] on the ASCII range: the letters [A-Z] are mapped to [a-z],
    every other byte is left alone. *)
Definition lower_ascii (c : ascii) : ascii :=
  let n := nat_of_ascii c in
  if (65 <=? n)%nat && (n <=? 90)%nat then ascii_of_nat (n + 32) else c.

Fixpoint lower (s : string) : string :=
  match s with
  | EmptyString => EmptyString
  | String c r => String (lower_ascii c) (lower r)
  end.

(** The characters [str.strip()] removes (ASCII white space). *)
Definition is_space (c : ascii) : bool :=
  let n := nat_of_ascii c in
  ((9 <=? n)%nat && (n <=? 13)%nat) || (28 <=? n)%nat && (n <=? 32)%nat.

Fixpoint lstrip (s : string) : string :=
  match s with
  | EmptyString => EmptyString
  | String c r => if is_space c then lstrip r else s
  end.

Fixpoint rstrip (s : string) : string :=
  match s with
  | EmptyString => EmptyString
  | String c r =>
      match rstrip r with
      | EmptyString => if is_space c then EmptyString else String c EmptyString
      | r' => String c r'
      end
  end.

Definition strip (s : string) : string := rstrip (lstrip s).

(** Truth value of a string: only the empty string is falsy. *)
Definition truthy (s : string) : bool :=
  match s with EmptyString => false | _ => true end.

(** [x in xs] for a list of strings. *)
Definition mem (x : string) (xs : list string) : bool :=
  bool_decide (x ∈ xs).

(** [any(p(x) for x in xs)]. *)
Definition any {A} (p : A → bool) (xs : list A) : bool := existsb p xs.

(** Comparisons of numbers. *)
Definition le (a b : Q) : bool := Qle_bool a b.
Definition lt (a b : Q) : bool := negb (Qle_bool b a).
Definition gt (a b : Q) : bool := lt b a.

Lemma le_spec a b : le a b = true ↔ (a <= b)%Q.
Proof. apply Qle_bool_iff. Qed.

Lemma lt_spec a b : lt a b = true ↔ (a < b)%Q.
Proof.
  unfold lt. rewrite negb_true_iff. split.
  - intros H. apply Qnot_le_lt. intros Hle. apply Qle_bool_iff in Hle. congruence.
  - intros H. destruct (Qle_bool b a) eqn:Hb; [| done].
    apply Qle_bool_iff in Hb. exfalso. by apply (Qlt_not_le a b).
Qed.

Lemma gt_spec a b : gt a b = true ↔ (b < a)%Q.
Proof. apply lt_spec. Qed.

Lemma lower_ascii_idempotent c : lower_ascii (lower_ascii c) = lower_ascii c.
Proof. destruct c as [[] [] [] [] [] [] [] []]; reflexivity. Qed.

Lemma lower_idempotent s : lower (lower s) = lower s.
Proof.
  induction s as [| c s IH]; simpl; [done |].
  by rewrite lower_ascii_idempotent, IH.
Qed.

Lemma mem_spec x xs : mem x xs = true ↔ x ∈ xs.
Proof. unfold mem. apply bool_decide_eq_true. Qed.

Lemma any_spec {A} (p : A → bool) xs : any p xs = true ↔ ∃ x, x ∈ xs ∧ p x = true.
Proof.
  unfold any. rewrite existsb_exists.
  split; intros (x & Hx & Hp); exists x; split; try done; by apply list_elem_of_In.
Qed.

End Py.

(* ===================================================================== *)
(** * Capture coordinator: the event handlers                             *)
(* ===================================================================== *)

Module Capture.

(** [request_data] as stored by [handle_request]. *)
Record RequestMeta := {
  rm_url : string;
  rm_method : string;
}.

(** The module globals the handlers touch. [spawned] lists the request ids
    for which [loading_finished_handler] created a [handle_response] task. *)
Record State := {
  request_map : gmap string RequestMeta;
  processed_request_ids : gset string;
  pending_request_ids : gset string;
  spawned : list string;
}.

Definition initial : State :=
  {| request_map := ∅; processed_request_ids := ∅;
     pending_request_ids := ∅; spawned := [] |}.

Inductive Event :=
| RequestWillBeSent (request_id url method : string)
| ResponseReceived (request_id url : string)
| LoadingFinished (request_id : string).

Section Handlers.
(** [config.TARGET_ENDPOINT]. *)
Variable TARGET_ENDPOINT : string.

(** [url.startswith(config.TARGET_ENDPOINT)]. *)
Definition startswith (url : string) : bool := String.prefix TARGET_ENDPOINT url.

(** [request_will_be_sent_handler] followed by the [handle_request] task it
    creates: the request is recorded in [request_map]. *)
Definition request_will_be_sent_handler (req_id url method : string) (s : State) : State :=
  if startswith url then
    {| request_map := <[req_id := {| rm_url := url; rm_method := method |}]> (request_map s);
       processed_request_ids := processed_request_ids s;
       pending_request_ids := pending_request_ids s;
       spawned := spawned s |}
  else s.

Definition response_received_handler (req_id url : string) (s : State) : State :=
  if startswith url then
    if bool_decide (req_id ∈ processed_request_ids s) then s
    else
      {| request_map := request_map s;
         processed_request_ids := {[req_id]} ∪ processed_request_ids s;
         pending_request_ids := {[req_id]} ∪ pending_request_ids s;
         spawned := spawned s |}
  else s.

Definition loading_finished_handler (req_id : string) (s : State) : State :=
  if bool_decide (req_id ∈ pending_request_ids s) then
    {| request_map := request_map s;
       processed_request_ids := processed_request_ids s;
       pending_request_ids := pending_request_ids s ∖ {[req_id]};
       spawned := spawned s ++ [req_id] |}
  else s.

Definition handle (e : Event) (s : State) : State :=
  match e with
  | RequestWillBeSent r u m => request_will_be_sent_handler r u m s
  | ResponseReceived r u => response_received_handler r u s
  | LoadingFinished r => loading_finished_handler r s
  end.

(** The handlers run one after the other; none of them suspends between its
    membership test and its update. *)
Definition run (evs : list Event) (s : State) : State :=
  foldl (λ st e, handle e st) s evs.

Definition pending_subset (s : State) : Prop :=
  pending_request_ids s ⊆ processed_request_ids s.

Ltac handler_cases e :=
  destruct e as [rq ul md | rq ul | rq]; simpl;
  unfold request_will_be_sent_handler, response_received_handler,
         loading_finished_handler;
  try destruct (startswith ul);
  try match goal with |- context [bool_decide ?P] => destruct (bool_decide_reflect P) end;
  simpl.

Lemma handle_pending_subset e s :
  pending_subset s → pending_subset (handle e s).
Proof. unfold pending_subset. handler_cases e; set_solver. Qed.

Lemma handle_processed_mono e s :
  processed_request_ids s ⊆ processed_request_ids (handle e s).
Proof. handler_cases e; set_solver. Qed.

Lemma handle_new_pending e s r :
  r ∈ pending_request_ids (handle e s) → r ∉ pending_request_ids s →
  (∃ u, e = ResponseReceived r u) ∧
  (r ∉ processed_request_ids s) ∧ r ∈ processed_request_ids (handle e s).
Proof.
  handler_cases e; intros Hin Hnot; try done.
  - assert (r = rq) as -> by set_solver.
    split; [by exists ul | set_solver].
  - set_solver.
Qed.

Lemma loading_finished_only_removes r s :
  pending_request_ids (handle (LoadingFinished r) s) ⊆ pending_request_ids s.
Proof.
  simpl. unfold loading_finished_handler.
  destruct (bool_decide_reflect (r ∈ pending_request_ids s)); simpl; set_solver.
Qed.

Lemma initial_pending_subset : pending_subset initial.
Proof. unfold pending_subset, initial. simpl. set_solver. Qed.

Lemma run_pending_subset evs s :
  pending_subset s → pending_subset (run evs s).
Proof.
  revert s. induction evs as [| e evs IH]; intros s Hs; simpl; [done |].
  apply IH. by apply handle_pending_subset.
Qed.

(** Every state the handlers can reach from the empty registries keeps the
    pending ids among the processed ones. *)
Lemma reachable_pending_subset evs : pending_subset (run evs initial).
Proof. apply run_pending_subset, initial_pending_subset. Qed.

(** C9.  The pending request ids stay a subset of the processed request ids
    under every event handler: a handler started in a state where the
    inclusion holds ends in one where it holds; no handler removes an id from
    the processed set; an id enters the pending set only through the
    response-received handler, in the very step that adds it to the processed
    set; and the loading-finished handler only removes ids from the pending
    set. *)
Theorem pending_subset_processed_invariant (e : Event) (s : State) :
  pending_subset s →
  pending_subset (handle e s) ∧
  processed_request_ids s ⊆ processed_request_ids (handle e s) ∧
  (∀ r, r ∈ pending_request_ids (handle e s) → r ∉ pending_request_ids s →
        (∃ u, e = ResponseReceived r u) ∧
        (r ∉ processed_request_ids s) ∧ r ∈ processed_request_ids (handle e s)) ∧
  (∀ r, e = LoadingFinished r →
        pending_request_ids (handle e s) ⊆ pending_request_ids s).
Proof.
  intros Hs. split; [by apply handle_pending_subset |].
  split; [apply handle_processed_mono |].
  split; [intros r; apply handle_new_pending |].
  intros r ->. apply loading_finished_only_removes.
Qed.

(** ** Dispatch of [handle_response] tasks *)

(** What holds of the ids for which a [handle_response] task was created:
    each was created once, its id is processed and no longer pending. *)
Definition dispatch_ok (s : State) : Prop :=
  NoDup (spawned s) ∧
  (∀ r, r ∈ spawned s → r ∈ processed_request_ids s ∧ r ∉ pending_request_ids s) ∧
  pending_subset s.

Lemma handle_dispatch_ok e s : dispatch_ok s → dispatch_ok (handle e s).
Proof.
  intros (Hnd & Hsp & Hsub).
  split; [| split; [| by apply handle_pending_subset]]; revert Hnd Hsp Hsub;
    unfold pending_subset; handler_cases e; intros Hnd Hsp Hsub; try done.
  - apply NoDup_app. split; [done |]. split; [| apply NoDup_singleton].
    intros x Hx ->%list_elem_of_singleton. by destruct (Hsp rq Hx).
  - intros x Hx. destruct (Hsp x Hx) as [Hp Hq]. set_solver.
  - intros x [Hx | ->%list_elem_of_singleton]%elem_of_app.
    + destruct (Hsp x Hx) as [Hp Hq]. set_solver.
    + set_solver.
Qed.

Lemma run_dispatch_ok evs s : dispatch_ok s → dispatch_ok (run evs s).
Proof.
  revert s. induction evs as [| e evs IH]; intros s Hs; simpl; [done |].
  by apply IH, handle_dispatch_ok.
Qed.

(** The requests whose response was received on the target endpoint. *)
Definition responses_seen (evs : list Event) : list string :=
  omap (λ e, match e with
             | ResponseReceived r u => if startswith u then Some r else None
             | _ => None
             end) evs.

Lemma run_processed_from_responses evs s r :
  r ∈ processed_request_ids (run evs s) →
  r ∈ processed_request_ids s ∨ r ∈ responses_seen evs.
Proof.
  revert s. induction evs as [| e evs IH]; intros s; simpl; [by left |].
  intros [Hs | Hin]%IH.
  - unfold responses_seen. csimpl.
    destruct e as [rq ul md | rq ul | rq]; simpl in *;
      unfold request_will_be_sent_handler, response_received_handler,
             loading_finished_handler in Hs.
    + destruct (startswith ul); by left.
    + destruct (startswith ul); [| by left].
      case_bool_decide; simpl in Hs; [by left |].
      apply elem_of_union in Hs as [->%elem_of_singleton | Hs]; [right; by left | by left].
    + case_bool_decide; by left.
  - right. unfold responses_seen in *. csimpl.
    destruct e as [rq ul md | rq ul | rq]; try done.
    destruct (startswith ul); [by right | done].
Qed.

(** X1.  Over any sequence of events handled from the empty registries, a
    [handle_response] task is created at most once per request id, only for
    an id whose response was received on the target endpoint, and such an id
    is processed and no longer pending. *)
Theorem response_task_created_once (evs : list Event) :
  let s := run evs initial in
  NoDup (spawned s) ∧
  ∀ r, r ∈ spawned s →
       r ∈ responses_seen evs ∧
       r ∈ processed_request_ids s ∧ r ∉ pending_request_ids s.
Proof.
  intros s.
  assert (H0 : dispatch_ok initial).
  { split; [constructor |]. split; [by intros r ?%elem_of_nil | apply initial_pending_subset]. }
  destruct (run_dispatch_ok evs initial H0) as (Hnd & Hsp & _).
  split; [done |]. intros r Hr. destruct (Hsp r Hr) as [Hp Hq].
  split; [| done].
  destruct (run_processed_from_responses evs initial r Hp) as [He | Hs]; [| done].
  by apply not_elem_of_empty in He.
Qed.

(** X2.  A repeated event is ignored: handling the same response-received
    or loading-finished event a second time leaves the state as the first
    handling left it, and an event whose URL is outside the target endpoint
    changes nothing. *)
Theorem repeated_events_are_ignored (s : State) (r u m : string) :
  handle (ResponseReceived r u) (handle (ResponseReceived r u) s)
    = handle (ResponseReceived r u) s ∧
  handle (LoadingFinished r) (handle (LoadingFinished r) s)
    = handle (LoadingFinished r) s ∧
  (startswith u = false →
     handle (ResponseReceived r u) s = s ∧ handle (RequestWillBeSent r u m) s = s).
Proof.
  split; [| split].
  - simpl. unfold response_received_handler.
    destruct (startswith u); [| done].
    destruct (bool_decide_reflect (r ∈ processed_request_ids s)) as [Hin | Hin]; simpl.
    + by rewrite bool_decide_eq_true_2.
    + rewrite bool_decide_eq_true_2; [done | set_solver].
  - simpl. unfold loading_finished_handler.
    destruct (bool_decide_reflect (r ∈ pending_request_ids s)) as [Hin | Hin]; simpl.
    + rewrite bool_decide_eq_false_2; [done | set_solver].
    + by rewrite bool_decide_eq_false_2.
  - intros Hu. simpl. unfold response_received_handler, request_will_be_sent_handler.
    by rewrite Hu.
Qed.

(** ** The reset at the end of a run *)

(** The [finally] block of [main]: [processed_request_ids] and
    [request_map] are cleared, [pending_request_ids] is not. *)
Definition end_of_run_reset (s : State) : State :=
  {| request_map := ∅; processed_request_ids := ∅;
     pending_request_ids := pending_request_ids s; spawned := spawned s |}.

(** X3.  The reset at the end of a run keeps the pending ids.  An id [r]
    that is still pending then is no longer among the processed ids, and in
    the next run of the same process a loading-finished event creates a task
    for it, a response-received event makes it pending again, and a second
    loading-finished event creates a second task for the same id. *)
Theorem reset_keeps_pending_ids (s : State) (r u : string) :
  startswith u = true → r ∈ pending_request_ids s →
  let s1 := end_of_run_reset s in
  r ∈ pending_request_ids s1 ∧ (r ∉ processed_request_ids s1) ∧ ¬ pending_subset s1 ∧
  spawned (run [LoadingFinished r; ResponseReceived r u; LoadingFinished r] s1)
    = (spawned s ++ [r; r])%list.
Proof.
  intros Hu Hr s1. subst s1. unfold end_of_run_reset.
  split; [done |]. split; [set_solver |]. split.
  { unfold pending_subset. simpl. set_solver. }
  simpl. unfold loading_finished_handler at 2. simpl.
  rewrite (bool_decide_eq_true_2 _ Hr). simpl.
  unfold response_received_handler. simpl. rewrite Hu.
  rewrite (bool_decide_eq_false_2 (r ∈ (∅ : gset string))) by set_solver. simpl.
  unfold loading_finished_handler. simpl.
  rewrite bool_decide_eq_true_2 by set_solver. simpl.
  by rewrite <- app_assoc.
Qed.

End Handlers.

Lemma pending_subset_processed_invariant_witness :
  let ep := "https://www.tiktok.com/api/recommend/item_list" in
  let s := handle ep (ResponseReceived "r1" (ep ++ "?count=9")) initial in
  pending_subset s ∧ "r1" ∈ pending_request_ids s ∧
  pending_subset (handle ep (LoadingFinished "r1") s).
Proof.
  intros ep s.
  assert (Hs : pending_subset s) by (vm_compute; set_solver).
  split; [exact Hs |].
  split; [vm_compute; set_solver |].
  exact (proj1 (pending_subset_processed_invariant ep (LoadingFinished "r1") s Hs)).
Defined.

Lemma reset_keeps_pending_ids_witness :
  let ep := "https://www.tiktok.com/api/recommend/item_list" in
  let s := handle ep (ResponseReceived "r1" ep) initial in
  startswith ep ep = true ∧ "r1" ∈ pending_request_ids s ∧
  spawned (run ep [LoadingFinished "r1"; ResponseReceived "r1" ep; LoadingFinished "r1"]
               (end_of_run_reset s)) = ["r1"; "r1"].
Proof.
  intros ep s.
  assert (Hu : startswith ep ep = true) by reflexivity.
  assert (Hr : "r1" ∈ pending_request_ids s) by (vm_compute; set_solver).
  split; [exact Hu |]. split; [exact Hr |].
  exact (proj2 (proj2 (proj2 (reset_keeps_pending_ids ep s "r1" ep Hu Hr)))).
Defined.

End Capture.

(* ===================================================================== *)
(** * Response normaliser                                                 *)
(* ===================================================================== *)

(** One raw element of [data["itemList"]], as far as [handle_response] reads
    it.  A field that may be missing is an [option]; [vid_obj.get(k, d)] is
    [default d].  The remaining keys (stats, music, challenges, ...) only
    feed record fields that no decision of the pipeline reads. *)
Module Item.

(** [video_stats.get("duration", 0)] as [float(...)] sees it.  [DurNumber q]
    is a JSON number of value [q] (an int of any size or a finite float), or
    a string that [float()] parses to the finite value [q]; inputs that
    [float()] maps to an infinity or to a NaN are not represented. *)
Inductive DurationValue :=
| DurAbsent                 (* no "duration" key: the default 0 *)
| DurNumber (q : Q)
| DurUnparseable.           (* float() raises TypeError or ValueError *)

(** [vid_obj.get("video", {})]. *)
Inductive VideoField :=
| VideoAbsent
| VideoEmpty
| VideoObj (duration : DurationValue).

Record LiveRoomInfo := { roomID : option string }.

Record TextExtra := { type : option Z; hashtagName : option string }.

Record Content := { textExtra : option (list TextExtra) }.

Record Author := { author_id : option string; uniqueId : option string }.

Record t := {
  id : option string;
  containerType : option Z;
  liveRoomInfo : option LiveRoomInfo;
  video : VideoField;
  isAd : bool;                          (* truth value of [vid_obj.get("isAd", False)] *)
  author : option Author;
  contents : option (list Content);
}.

End Item.

Module Normalizer.

(** The [details] dictionary built for one item (the keys later stages
    read). *)
Record VideoRecord := {
  video_id : string;
  author_id : string;
  author_unique_id : string;
  duration : Q;
  hashtags : list string;
  fullurl : string;
  isAd : bool;
  skip_this : bool;
}.

(** [clean_text]: NFC normalisation, the identity on the ASCII strings
    modelled here. *)
Definition clean_text (text : string) : string := text.

(** [float(n)] raises [OverflowError] for an int [n] that rounds beyond the
    largest float, that is for [|n| >= 2^1024 - 2^970].  No finite float is
    that large, so a [DurNumber] of that magnitude is an int. *)
Definition float_overflow_bound : Q := inject_Z (2 ^ 1024 - 2 ^ 970).

Definition float_raises_overflow (q : Q) : bool :=
  Qle_bool float_overflow_bound (Qabs q).

(** [float(video_stats.get("duration", 0))] with its
    [except (TypeError, ValueError)] clause.  [None]: the call raises
    [OverflowError], which the clause does not catch. *)
Definition parse_duration (d : Item.DurationValue) : option Q :=
  match d with
  | Item.DurAbsent => Some 0%Q
  | Item.DurNumber q => if float_raises_overflow q then None else Some q
  | Item.DurUnparseable => Some 0%Q
  end.

(** The sequence of tests that sets [skip_it], with [raw_duration].
    [None]: the duration conversion raised. *)
Definition classify (vid_obj : Item.t) : option (bool * Q) :=
  let skip_it := false in
  let skip_it :=
    if bool_decide (Item.containerType vid_obj = Some 2%Z) then true else skip_it in
  let skip_it :=
    if bool_decide (is_Some (Item.liveRoomInfo vid_obj)) then true else skip_it in
  let video_stats := Item.video vid_obj in
  let skip_it :=
    match video_stats with Item.VideoObj _ => skip_it | _ => true end in
  raw_duration ←
    match video_stats with Item.VideoObj d => parse_duration d | _ => Some 0%Q end;
  let skip_it :=
    match video_stats with
    | Item.VideoObj _ => if Qeq_bool raw_duration 0%Q then true else skip_it
    | _ => skip_it
    end in
  let skip_it := if Item.isAd vid_obj then true else skip_it in
  Some (skip_it, raw_duration).

(** The hashtags of the first element of [contents]. *)
Definition hashtags_of (vid_obj : Item.t) : list string :=
  let contents := default [ {| Item.textExtra := None |} ] (Item.contents vid_obj) in
  let text_extras :=
    match contents with
    | [] => []
    | c :: _ => default [] (Item.textExtra c)
    end in
  omap (λ t_ex,
          if bool_decide (Item.type t_ex = Some 1%Z)
          then Some (clean_text (default EmptyString (Item.hashtagName t_ex)))
          else None) text_extras.

(** "Build the final details dict", from the item and the [skip_it] and
    [raw_duration] computed for it. *)
Definition build_details (vid_obj : Item.t) (vid_id : string)
    (skip_it : bool) (raw_duration : Q) : VideoRecord :=
  let author := default {| Item.author_id := None; Item.uniqueId := None |} (Item.author vid_obj) in
  let author_unique_id := default "Unknown" (Item.uniqueId author) in
  {| video_id := vid_id;
     author_id := default "Unknown Author" (Item.author_id author);
     author_unique_id := author_unique_id;
     duration := raw_duration;
     hashtags := hashtags_of vid_obj;
     fullurl :=
       if bool_decide (author_unique_id ≠ "Unknown") && bool_decide (vid_id ≠ "Unknown ID")
       then "https://www.tiktok.com/@" ++ author_unique_id ++ "/video/" ++ vid_id
       else "N/A";
     isAd := Item.isAd vid_obj;
     skip_this := skip_it |}.

(** The state of the [for vid_obj in videos] loop: the global
    [processed_video_ids], the count of [uuid4] calls, the local
    [video_details_list], and whether an exception has left the loop (it is
    then caught by the outer handler of [handle_response], and
    [video_details_list] is not used any more). *)
Record LoopState := {
  processed_video_ids : gset string;
  uuid_calls : nat;
  video_details_list : list VideoRecord;
  raised : bool;
}.

Section Normalize.
(** [str(uuid.uuid4())] at its [k]-th call. *)
Variable uuid4 : nat → string.

(** The identifier of an item, and the number of [uuid4] calls made so
    far. *)
Definition derive_id (vid_obj : Item.t) (k : nat) : string * nat :=
  let container_type := Item.containerType vid_obj in
  let live_info := default {| Item.roomID := None |} (Item.liveRoomInfo vid_obj) in
  let raw_id := Py.strip (default EmptyString (Item.id vid_obj)) in
  if negb (Py.truthy raw_id) then
    match bool_decide (container_type = Some 2%Z), Item.roomID live_info with
    | true, Some room => ("livestream_" ++ room, k)
    | _, _ => ("unknown_" ++ uuid4 k, S k)
    end
  else (raw_id, k).

(** One iteration of the loop.  The identifier is registered before the
    duration is converted, so an item whose conversion raises stays
    registered although no record is built for it. *)
Definition normalize_item (st : LoopState) (vid_obj : Item.t) : LoopState :=
  let '(vid_id, k) := derive_id vid_obj (uuid_calls st) in
  if bool_decide (vid_id ∈ processed_video_ids st) then
    {| processed_video_ids := processed_video_ids st;
       uuid_calls := k;
       video_details_list := video_details_list st;
       raised := false |}
  else
    let registered := {[vid_id]} ∪ processed_video_ids st in
    match classify vid_obj with
    | None =>
        {| processed_video_ids := registered;
           uuid_calls := k;
           video_details_list := video_details_list st;
           raised := true |}
    | Some (skip_it, raw_duration) =>
        {| processed_video_ids := registered;
           uuid_calls := k;
           video_details_list :=
             video_details_list st ++ [build_details vid_obj vid_id skip_it raw_duration];
           raised := false |}
    end.

(** The loop: it ends with the list, or at the first iteration that
    raises. *)
Fixpoint normalize_from (st : LoopState) (videos : list Item.t) : LoopState :=
  match videos with
  | [] => st
  | vid_obj :: rest =>
      let st' := normalize_item st vid_obj in
      if raised st' then st' else normalize_from st' rest
  end.

(** The loop over one [itemList], started with an empty
    [video_details_list]. *)
Definition normalize (registry : gset string) (k : nat) (videos : list Item.t) : LoopState :=
  normalize_from
    {| processed_video_ids := registry; uuid_calls := k; video_details_list := [];
       raised := false |}
    videos.

(** The identifiers the items of a response get, in item order. *)
Fixpoint derived_ids (k : nat) (videos : list Item.t) : list string :=
  match videos with
  | [] => []
  | vid_obj :: rest =>
      let '(vid_id, k') := derive_id vid_obj k in
      vid_id :: derived_ids k' rest
  end.


(** The skip checks in the words of the specification.  The duration check
    reads the raw field: a missing duration counts as zero (it is read with
    the default 0). *)
Definition duration_zero_or_unparseable (d : Item.DurationValue) : Prop :=
  match d with
  | Item.DurAbsent => True
  | Item.DurNumber q => (q == 0)%Q
  | Item.DurUnparseable => True
  end.

Definition skip_conditions (vid_obj : Item.t) : Prop :=
  Item.containerType vid_obj = Some 2%Z ∨
  is_Some (Item.liveRoomInfo vid_obj) ∨
  Item.video vid_obj = Item.VideoAbsent ∨
  Item.video vid_obj = Item.VideoEmpty ∨
  (∃ d, Item.video vid_obj = Item.VideoObj d ∧ duration_zero_or_unparseable d) ∨
  Item.isAd vid_obj = true.

(** ** The classification of one item *)

Lemma parse_duration_zero d q :
  parse_duration d = Some q → (q == 0)%Q ↔ duration_zero_or_unparseable d.
Proof.
  destruct d as [| q' |]; simpl.
  - intros [= <-]. split; [done | reflexivity].
  - destruct (float_raises_overflow q'); [done |]. by intros [= <-].
  - intros [= <-]. split; [done | reflexivity].
Qed.

Lemma classify_skip_conditions vid_obj skip_it raw_duration :
  classify vid_obj = Some (skip_it, raw_duration) →
  skip_it = true ↔ skip_conditions vid_obj.
Proof.
  unfold classify, skip_conditions.
  destruct (Item.video vid_obj) as [| | d] eqn:Hv; simpl.
  - intros [= <- <-]. split; [intros _; by do 2 right; left |].
    intros _. by destruct (Item.isAd vid_obj).
  - intros [= <- <-]. split; [intros _; by do 3 right; left |].
    intros _. by destruct (Item.isAd vid_obj).
  - destruct (parse_duration d) as [q |] eqn:Hd; simpl; [| done].
    intros [= <- <-].
    pose proof (parse_duration_zero d q Hd) as Hz.
    destruct (Item.isAd vid_obj) eqn:Had.
    { split; [intros _; by repeat right | done]. }
    destruct (Qeq_bool q 0) eqn:Hq.
    { split; [intros _ | done].
      do 4 right; left. exists d. split; [done |]. by apply Hz, Qeq_bool_iff. }
    assert (Hnz : ¬ duration_zero_or_unparseable d).
    { intros Hd0. apply Hz, Qeq_bool_iff in Hd0. congruence. }
    repeat case_bool_decide; split; try done; try (intros _; by auto).
    intros [? | [? | [? | [? | [(d' & Hd' & Hc) | ?]]]]]; try done.
    by simplify_eq.
Qed.

Lemma classify_not_skipped vid_obj raw_duration :
  classify vid_obj = Some (false, raw_duration) →
  Item.isAd vid_obj = false ∧ Qeq_bool raw_duration 0 = false.
Proof.
  unfold classify.
  destruct (Item.video vid_obj) as [| | d]; simpl.
  - by destruct (Item.isAd vid_obj).
  - by destruct (Item.isAd vid_obj).
  - destruct (parse_duration d) as [q |]; simpl; [| done].
    destruct (Item.isAd vid_obj); [done |].
    destruct (Qeq_bool q 0) eqn:Hq; [done |].
    intros [= _ <-]. done.
Qed.


(** ** The loop *)




(** What a run of the loop does, whether or not it is cut short: [new] is
    what it appends to [video_details_list]. *)
Lemma normalize_from_spec st videos :
  let ids := derived_ids (uuid_calls st) videos in
  let out := normalize_from st videos in
  ∃ new,
    video_details_list out = (video_details_list st ++ new)%list ∧
    processed_video_ids st ⊆ processed_video_ids out ∧
    processed_video_ids out ⊆ list_to_set ids ∪ processed_video_ids st ∧
    NoDup (video_id <$> new) ∧
    (video_id <$> new) `sublist_of` ids ∧
    (∀ x, x ∈ video_id <$> new →
          (x ∉ processed_video_ids st) ∧ x ∈ processed_video_ids out) ∧
    Forall (λ r, ∃ vid_obj s d, vid_obj ∈ videos ∧ classify vid_obj = Some (s, d) ∧
                 r = build_details vid_obj (video_id r) s d) new ∧
    (raised st = false → raised out = false →
       processed_video_ids out = list_to_set ids ∪ processed_video_ids st ∧
       ∀ x, x ∈ ids → x ∉ processed_video_ids st → x ∈ video_id <$> new) ∧
    (raised st = false → raised out = true →
       ∃ x, x ∈ processed_video_ids out ∧ (x ∉ processed_video_ids st) ∧
            x ∉ video_id <$> new).
Proof.
  revert st. induction videos as [| vid_obj rest IH]; intros st; simpl.
  { exists []. rewrite app_nil_r. csimpl.
    split; [done |]. split; [done |]. split; [set_solver |]. split; [constructor |].
    split; [constructor |]. split; [by intros x ?%elem_of_nil |].
    split; [constructor |]. split; [| congruence].
    intros _ _. split; [set_solver | by intros x ?%elem_of_nil]. }
  unfold normalize_item.
  destruct (derive_id vid_obj (uuid_calls st)) as [vid_id k'] eqn:Hid.
  case_bool_decide as Hin; simpl.
  - (* already registered *)
    match goal with |- context [normalize_from ?u rest] =>
      destruct (IH u) as (new & Hl & Hsub1 & Hsub2 & Hnd & Hsl & Hmem & Hrec & Hok & Hbad) end.
    simpl in *. exists new.
    split; [done |]. split; [done |]. split; [set_solver |]. split; [done |].
    split; [by constructor |]. split; [done |]. split.
    { eapply Forall_impl; [exact Hrec |]. intros r (v & s & d & Hv & Hc & Hr).
      exists v, s, d. split; [by right | done]. }
    split.
    + intros _ Hout. destruct (Hok eq_refl Hout) as [Hp Hall].
      split; [rewrite Hp; set_solver |].
      intros x [-> | Hx]%elem_of_cons Hnot; [done | by apply Hall].
    + intros _ Hout. by apply Hbad.
  - destruct (classify vid_obj) as [[skip_it raw_duration] |] eqn:Hc; simpl.
    + (* a record is appended *)
      match goal with |- context [normalize_from ?u rest] =>
        destruct (IH u) as (new & Hl & Hsub1 & Hsub2 & Hnd & Hsl & Hmem & Hrec & Hok & Hbad) end.
      simpl in *.
      exists (build_details vid_obj vid_id skip_it raw_duration :: new). csimpl.
      split; [by rewrite Hl, <- app_assoc |].
      split; [set_solver |]. split; [set_solver |].
      split.
      { constructor; [| done]. intros Hx. apply Hmem in Hx. set_solver. }
      split; [by constructor |].
      split.
      { intros x [-> | Hx]%elem_of_cons; [split; [done | set_solver] |].
        apply Hmem in Hx. set_solver. }
      split.
      { constructor.
        - exists vid_obj, skip_it, raw_duration. split; [by left | done].
        - eapply Forall_impl; [exact Hrec |]. intros r (v & s & d & Hv & Hcl & Hr).
          exists v, s, d. split; [by right | done]. }
      split.
      * intros _ Hout. destruct (Hok eq_refl Hout) as [Hp Hall].
        split; [rewrite Hp; set_solver |].
        intros x [-> | Hx]%elem_of_cons Hnot; [by left |].
        destruct (decide (x = vid_id)) as [-> | Hne]; [by left |].
        right. apply Hall; [done | set_solver].
      * intros _ Hout. destruct (Hbad eq_refl Hout) as (x & Hx1 & Hx2 & Hx3).
        exists x. split; [done |]. split; [set_solver |].
        intros [-> | Hx]%elem_of_cons; [set_solver | done].
    + (* the conversion raises *)
      exists []. rewrite app_nil_r. csimpl.
      split; [done |]. split; [set_solver |]. split; [set_solver |].
      split; [constructor |]. split; [apply sublist_nil_l |].
      split; [by intros x ?%elem_of_nil |]. split; [constructor |].
      split; [done |]. intros _ _. exists vid_id.
      split; [set_solver |]. split; [done | by intros ?%elem_of_nil].
Qed.


Lemma normalize_from_all_registered st videos :
  (∀ x, x ∈ derived_ids (uuid_calls st) videos → x ∈ processed_video_ids st) →
  raised st = false →
  video_details_list (normalize_from st videos) = video_details_list st ∧
  processed_video_ids (normalize_from st videos) = processed_video_ids st ∧
  raised (normalize_from st videos) = false.
Proof.
  revert st. induction videos as [| vid_obj rest IH]; intros st Hall Hst; simpl; [done |].
  simpl in Hall. unfold normalize_item.
  destruct (derive_id vid_obj (uuid_calls st)) as [vid_id k'] eqn:Hid.
  rewrite bool_decide_eq_true_2 by (apply Hall; by left). simpl.
  match goal with |- context [normalize_from ?u rest] =>
    destruct (IH u) as (H1 & H2 & H3) end; [| done | done].
  simpl. intros x Hx. apply Hall. by right.
Qed.

(** The loop started on an empty list of records. *)
Lemma normalize_spec registry k videos :
  let ids := derived_ids k videos in
  let out := normalize registry k videos in
  let new := video_details_list out in
  registry ⊆ processed_video_ids out ∧
  processed_video_ids out ⊆ list_to_set ids ∪ registry ∧
  NoDup (video_id <$> new) ∧
  (video_id <$> new) `sublist_of` ids ∧
  (∀ x, x ∈ video_id <$> new → (x ∉ registry) ∧ x ∈ processed_video_ids out) ∧
  Forall (λ r, ∃ vid_obj s d, vid_obj ∈ videos ∧ classify vid_obj = Some (s, d) ∧
               r = build_details vid_obj (video_id r) s d) new ∧
  (raised out = false →
     processed_video_ids out = list_to_set ids ∪ registry ∧
     ∀ x, x ∈ ids → x ∉ registry → x ∈ video_id <$> new) ∧
  (raised out = true →
     ∃ x, x ∈ processed_video_ids out ∧ (x ∉ registry) ∧ x ∉ video_id <$> new).
Proof.
  intros ids out new. subst ids out new. unfold normalize.
  destruct (normalize_from_spec
    {| processed_video_ids := registry; uuid_calls := k; video_details_list := [];
       raised := false |} videos)
    as (new & Hl & Hsub1 & Hsub2 & Hnd & Hsl & Hmem & Hrec & Hok & Hbad).
  simpl in *. rewrite Hl.
  repeat (split; [done |]). split; [by apply Hok | by apply Hbad].
Qed.

Lemma normalize_emits_unregistered registry k videos r :
  r ∈ video_details_list (normalize registry k videos) → video_id r ∉ registry.
Proof.
  intros Hr.
  destruct (normalize_spec registry k videos) as (_ & _ & _ & _ & Hmem & _).
  apply Hmem. by apply list_elem_of_fmap_2.
Qed.

(** C4.  One iteration of the normaliser either appends nothing (the item
    is already registered, or converting its duration raises) or appends one
    record, for an item not yet registered; the [skip_this] flag of that
    record is true exactly when one of the checks of the specification
    holds of the raw item (container type 2, live-room metadata present,
    video-stats object absent or empty, duration zero or unparseable, a
    missing duration being read as 0, advertisement flag set) and false
    exactly when none holds.  Hence every
    record built for a response comes from one of its items and carries the
    flag of that item. *)
Theorem skip_this_is_or_of_checks (registry : gset string) (k : nat)
    (videos : list Item.t) :
  (∀ st vid_obj,
     let vid_id := (derive_id vid_obj (uuid_calls st)).1 in
     let st' := normalize_item st vid_obj in
     video_details_list st' = video_details_list st ∧
     (vid_id ∈ processed_video_ids st ∨ raised st' = true) ∨
     ∃ r, video_details_list st' = (video_details_list st ++ [r])%list ∧
          (vid_id ∉ processed_video_ids st) ∧ raised st' = false ∧
          video_id r = vid_id ∧
          (skip_this r = true ↔ skip_conditions vid_obj) ∧
          (skip_this r = false ↔ ¬ skip_conditions vid_obj)) ∧
  (∀ r, r ∈ video_details_list (normalize registry k videos) →
     ∃ vid_obj raw_duration,
       vid_obj ∈ videos ∧
       r = build_details vid_obj (video_id r) (skip_this r) raw_duration ∧
       (skip_this r = true ↔ skip_conditions vid_obj) ∧
       (skip_this r = false ↔ ¬ skip_conditions vid_obj)).
Proof.
  assert (Hflag : ∀ vid_obj s d, classify vid_obj = Some (s, d) →
    (s = true ↔ skip_conditions vid_obj) ∧ (s = false ↔ ¬ skip_conditions vid_obj)).
  { intros vid_obj s d Hc. pose proof (classify_skip_conditions vid_obj s d Hc) as H.
    split; [done |]. destruct s.
    - split; [done |]. intros Hn. exfalso. by apply Hn, H.
    - split; [| done]. intros _ Hsc. by apply H in Hsc. }
  split.
  - intros st vid_obj vid_id st'. subst vid_id st'. unfold normalize_item.
    destruct (derive_id vid_obj (uuid_calls st)) as [vid_id k']. simpl.
    case_bool_decide; simpl; [left; split; [done | by left] |].
    destruct (classify vid_obj) as [[s d] |] eqn:Hc; simpl;
      [right | left; split; [done | by right]].
    exists (build_details vid_obj vid_id s d).
    repeat (split; [done |]). by apply (Hflag vid_obj s d).
  - intros r Hr.
    destruct (normalize_spec registry k videos) as (_ & _ & _ & _ & _ & Hrec & _).
    rewrite Forall_forall in Hrec.
    destruct (Hrec r Hr) as (vid_obj & s & d & Hin & Hc & Heq).
    assert (Hs : skip_this r = s) by (by rewrite Heq).
    exists vid_obj, d. split; [done |]. rewrite Hs. split; [done |].
    by apply (Hflag vid_obj s d).
Qed.


(** ** Further properties of the emitted records *)

Lemma truthy_nonempty s : Py.truthy s = true → s ≠ EmptyString.
Proof. by destruct s. Qed.

Lemma derive_id_nonempty vid_obj k : (derive_id vid_obj k).1 ≠ EmptyString.
Proof.
  unfold derive_id.
  destruct (Py.truthy (Py.strip (default EmptyString (Item.id vid_obj)))) eqn:Ht; simpl.
  - by apply truthy_nonempty.
  - destruct (bool_decide _); [destruct (Item.roomID _) |]; done.
Qed.

Lemma derived_ids_nonempty k videos : Forall (λ x, x ≠ EmptyString) (derived_ids k videos).
Proof.
  revert k. induction videos as [| vid_obj rest IH]; intros k; simpl; [constructor |].
  pose proof (derive_id_nonempty vid_obj k) as H.
  destruct (derive_id vid_obj k) as [vid_id k']. constructor; [done | apply IH].
Qed.

(** X11.  Every record emitted for a response has a non-empty video
    identifier: the stripped identifier of the item when it is not blank,
    else an identifier synthesised from the live room or from a fresh
    UUID. *)
Theorem emitted_video_ids_are_not_empty (registry : gset string) (k : nat)
    (videos : list Item.t) :
  Forall (λ r, video_id r ≠ EmptyString)
         (video_details_list (normalize registry k videos)).
Proof.
  apply Forall_forall. intros r Hr.
  destruct (normalize_spec registry k videos) as (_ & _ & _ & Hsl & _).
  assert (Hin : video_id r ∈ derived_ids k videos).
  { eapply elem_of_sublist; [| exact Hsl]. by apply list_elem_of_fmap_2. }
  pose proof (derived_ids_nonempty k videos) as Hall.
  rewrite Forall_forall in Hall. by apply Hall.
Qed.

(** X12.  A record that the normaliser does not classify as skippable is
    not an advertisement and has a non-zero duration: among the records of
    any emitted batch, every advertisement and every record of duration
    zero carries [skip_this]. *)
Theorem unskipped_records_are_playable (registry : gset string) (k : nat)
    (videos : list Item.t) :
  Forall (λ r, skip_this r = true ∨
               isAd r = false ∧ ¬ (duration r == 0)%Q)
         (video_details_list (normalize registry k videos)).
Proof.
  destruct (normalize_spec registry k videos) as (_ & _ & _ & _ & _ & Hrec & _).
  eapply Forall_impl; [exact Hrec |]. intros r (vid_obj & s & d & _ & Hc & ->). simpl.
  destruct s; [by left | right].
  apply classify_not_skipped in Hc as [Had Hd].
  split; [done |]. intros Hz. apply Qeq_bool_iff in Hz. congruence.
Qed.

Lemma derive_id_without_uuid vid_obj k k' :
  (derive_id vid_obj k).2 = k → derive_id vid_obj k' = ((derive_id vid_obj k).1, k').
Proof.
  unfold derive_id.
  destruct (negb (Py.truthy _)); [| done].
  destruct (bool_decide _); [destruct (Item.roomID _) |]; simpl; try done; lia.
Qed.

Lemma derived_ids_without_uuid k k' videos :
  Forall (λ vid_obj, ∀ n, (derive_id vid_obj n).2 = n) videos →
  derived_ids k' videos = derived_ids k videos.
Proof.
  intros Hall. revert k k'.
  induction Hall as [| vid_obj rest Hv Hrest IH]; intros k k'; simpl; [done |].
  rewrite (derive_id_without_uuid vid_obj k k' (Hv k)).
  pose proof (Hv k) as Hk.
  destruct (derive_id vid_obj k) as [vid_id k1]. simpl in *. subst k1.
  f_equal. apply IH.
Qed.

(** X13.  Processing a response a second time emits nothing: when no item
    of the response needs a synthesised UUID identifier and the first pass
    over the items was not cut short by an exception, normalising the same
    items again against the registry left by the first pass (or a larger
    one) builds no record, raises nothing and leaves that registry
    unchanged. *)
Theorem reprocessing_a_response_emits_nothing (registry later : gset string)
    (k k' : nat) (videos : list Item.t) :
  Forall (λ vid_obj, ∀ n, (derive_id vid_obj n).2 = n) videos →
  raised (normalize registry k videos) = false →
  let registry1 := processed_video_ids (normalize registry k videos) ∪ later in
  video_details_list (normalize registry1 k' videos) = [] ∧
  processed_video_ids (normalize registry1 k' videos) = registry1 ∧
  raised (normalize registry1 k' videos) = false.
Proof.
  intros Hall Hfirst registry1.
  destruct (normalize_spec registry k videos) as (_ & _ & _ & _ & _ & _ & Hok & _).
  destruct (Hok Hfirst) as [Hp _].
  apply (normalize_from_all_registered
    {| processed_video_ids := registry1; uuid_calls := k'; video_details_list := [];
       raised := false |} videos); [| done].
  simpl. intros x Hx. subst registry1. rewrite Hp.
  rewrite (derived_ids_without_uuid k k' videos Hall) in Hx.
  apply elem_of_union_l, elem_of_union_l. by apply elem_of_list_to_set.
Qed.

End Normalize.

(** Sample items: an ordinary video with an identifier, a duration and
    hashtags. *)
Definition sample_item (vid author : string) (dur : Q) (tags : list string) : Item.t :=
  {| Item.id := Some vid;
     Item.containerType := None;
     Item.liveRoomInfo := None;
     Item.video := Item.VideoObj (Item.DurNumber dur);
     Item.isAd := false;
     Item.author := Some {| Item.author_id := Some author; Item.uniqueId := Some author |};
     Item.contents :=
       Some [ {| Item.textExtra :=
                   Some ((λ t, {| Item.type := Some 1%Z; Item.hashtagName := Some t |}) <$> tags) |} ] |}.

Definition sample_uuid4 (k : nat) : string := String (ascii_of_nat (48 + k)) "-4a1c".


Lemma skip_this_is_or_of_checks_witness :
  let videos := [sample_item "7001" "ann" 0 ["cats"]; sample_item "7002" "bob" 40 ["cats"]] in
  let r1 := build_details (sample_item "7001" "ann" 0 ["cats"]) "7001" true 0 in
  let r2 := build_details (sample_item "7002" "bob" 40 ["cats"]) "7002" false 40 in
  video_details_list (normalize sample_uuid4 ∅ 0 videos) = [r1; r2] ∧
  (∃ vid_obj raw_duration,
     vid_obj ∈ videos ∧
     r1 = build_details vid_obj (video_id r1) (skip_this r1) raw_duration ∧
     (skip_this r1 = true ↔ skip_conditions vid_obj) ∧
     (skip_this r1 = false ↔ ¬ skip_conditions vid_obj)) ∧
  (∃ vid_obj raw_duration,
     vid_obj ∈ videos ∧
     r2 = build_details vid_obj (video_id r2) (skip_this r2) raw_duration ∧
     (skip_this r2 = true ↔ skip_conditions vid_obj) ∧
     (skip_this r2 = false ↔ ¬ skip_conditions vid_obj)).
Proof.
  intros videos r1 r2.
  assert (Hl : video_details_list (normalize sample_uuid4 ∅ 0 videos) = [r1; r2])
    by (vm_compute; reflexivity).
  split; [exact Hl |].
  split; apply (proj2 (skip_this_is_or_of_checks sample_uuid4 ∅ 0 videos));
    rewrite Hl; [by left | by right; left].
Defined.



Lemma reprocessing_a_response_emits_nothing_witness :
  let videos := [sample_item "7001" "ann" 0 ["cats"]; sample_item "7002" "bob" 40 ["cats"]] in
  length (video_details_list (normalize sample_uuid4 ∅ 0 videos)) = 2 ∧
  raised (normalize sample_uuid4 ∅ 0 videos) = false ∧
  video_details_list
    (normalize sample_uuid4
       (processed_video_ids (normalize sample_uuid4 ∅ 0 videos) ∪ ∅) 0 videos) = [].
Proof.
  intros videos.
  assert (Hok : raised (normalize sample_uuid4 ∅ 0 videos) = false)
    by (vm_compute; reflexivity).
  split; [vm_compute; reflexivity |]. split; [exact Hok |].
  refine (proj1 (reprocessing_a_response_emits_nothing sample_uuid4 ∅ ∅ 0 0 videos _ Hok)).
  repeat constructor.
Defined.

End Normalizer.

(* ===================================================================== *)
(** * Capture coordinator: [handle_response]                              *)
(* ===================================================================== *)

Module Response.
Import Normalizer.

(** What [connection.send(get_response_body(request_id))] does at one
    attempt. *)
Inductive SendResult :=
| RespBody (body : string) (is_base64_encoded : bool)  (* a (body, flag) pair *)
| RespEmpty                                            (* a falsy result *)
| RaisesCancelled                                      (* asyncio.CancelledError *)
| RaisesError.                                         (* any other exception *)

(** What [json.loads(decode_response_body(decompress_response_body(...)))]
    yields for a body: an exception, or the parsed object with its
    ["itemList"] when it has one. *)
Inductive ParseResult :=
| ParseRaises
| Parsed (itemList : option (list Item.t)).

(** The module globals [handle_response] reads in its quarantine step, and
    what the event loop and the file system answer there. *)
Record Env := {
  test_run_id_set : bool;       (* truth value of the global [test_run_id] *)
  current_scenario_set : bool;  (* the global [current_scenario] is a number, not None *)
  sleep_cancelled : bool;       (* [asyncio.sleep(2)] raises CancelledError *)
  makedirs_raises : bool;       (* [os.makedirs] of the scenario folder raises *)
  write_raises : bool;          (* [open] or [json.dump] of the invalid-JSON file raises *)
}.

Inductive Effect :=
| GetResponseBody (request_id : string) (attempt : nat)
| Sleep2
| MakeScenarioDir
| WriteInvalidJson (request_id : string)
| QueuePut (video_details_list : list VideoRecord).

Inductive Outcome :=
| Cancelled          (* return from the CancelledError handler *)
| Quarantined        (* invalid JSON file written, return *)
| QuarantineRaised   (* the quarantine step raised: the exception leaves the handler *)
| BodyStillNone      (* "Body is still None", return *)
| ParseFailed        (* exception logged by the outer handler *)
| ItemListMissing    (* no "itemList" key, return *)
| NormalizeRaised    (* exception inside the item loop, logged by the outer handler *)
| NoNewItems         (* nothing left after deduplication *)
| QueueUnset         (* video_batches_queue is None *)
| Enqueued.

(** The local variables of the retry loop. *)
Record FetchVars := {
  body : option string;
  is_base64_encoded : bool;
  attempt_failed : bool;
}.

Definition fetch_init : FetchVars :=
  {| body := None; is_base64_encoded := false; attempt_failed := false |}.

Inductive LoopExit :=
| LoopCancelled
| LoopDone (v : FetchVars).

Section HandleResponse.
Variable uuid4 : nat → string.
Variable decode_and_parse : string → bool → ParseResult.
(** [send attempt]: the answer of the browser at the given attempt. *)
Variable send : nat → SendResult.
(** Whether [video_batches_queue] has been set. *)
Variable queue_set : bool.
Variable env : Env.

(** [for attempt in range(5)], by recursion on the attempts left.  The
    pause after an empty first answer is inside the [try]: a cancellation
    during the pause returns from the handler like one during [send]. *)
Fixpoint fetch_loop (request_id : string) (attempts : list nat) (v : FetchVars)
  : list Effect * LoopExit :=
  match attempts with
  | [] => ([], LoopDone v)
  | attempt :: rest =>
      let e := GetResponseBody request_id attempt in
      match send attempt with
      | RespBody b b64 =>
          ([e], LoopDone {| body := Some b; is_base64_encoded := b64;
                            attempt_failed := attempt_failed v |})
      | RespEmpty =>
          if (attempt =? 0)%nat then
            if sleep_cancelled env then ([e; Sleep2], LoopCancelled)
            else
              let '(tr, x) := fetch_loop request_id rest v in
              (e :: Sleep2 :: tr, x)
          else
            let '(tr, x) :=
              fetch_loop request_id rest
                {| body := body v; is_base64_encoded := is_base64_encoded v;
                   attempt_failed := true |} in
            (e :: tr, x)
      | RaisesCancelled => ([e], LoopCancelled)
      | RaisesError =>
          ([e], LoopDone {| body := body v; is_base64_encoded := is_base64_encoded v;
                            attempt_failed := true |})
      end
  end.

(** The quarantine step ([if attempt_failed:]).  Both branches on
    [test_run_id] format [current_scenario] with [:.1f], which raises
    [TypeError] when it is [None]; the branch without a run id creates the
    scenario folder first.  None of this is inside a [try]. *)
Definition quarantine (request_id : string) : list Effect * Outcome :=
  if negb (current_scenario_set env) then ([], QuarantineRaised)
  else
    let write tr :=
      if write_raises env then (tr, QuarantineRaised)
      else ((tr ++ [WriteInvalidJson request_id])%list, Quarantined) in
    if test_run_id_set env then write []
    else if makedirs_raises env then ([], QuarantineRaised)
    else write [MakeScenarioDir].

(** The quarantine step runs to its end. *)
Definition quarantine_can_write : bool :=
  current_scenario_set env && (test_run_id_set env || negb (makedirs_raises env))
  && negb (write_raises env).

(** The registry state [handle_response] reads and updates. *)
Record Registry := {
  processed_video_ids : gset string;
  uuid_calls : nat;
}.

Definition handle_response (request_id : string) (reg : Registry)
  : Registry * list Effect * Outcome :=
  match fetch_loop request_id (seq 0 5) fetch_init with
  | (tr, LoopCancelled) => (reg, tr, Cancelled)
  | (tr, LoopDone v) =>
      if attempt_failed v then
        let '(tr', outcome) := quarantine request_id in
        (reg, (tr ++ tr')%list, outcome)
      else
        match body v with
        | None => (reg, tr, BodyStillNone)
        | Some b =>
            if negb (Py.truthy b) then (reg, tr, BodyStillNone)
            else
              match decode_and_parse b (is_base64_encoded v) with
              | ParseRaises => (reg, tr, ParseFailed)
              | Parsed None => (reg, tr, ItemListMissing)
              | Parsed (Some videos) =>
                  let out :=
                    normalize uuid4 (processed_video_ids reg) (uuid_calls reg) videos in
                  let reg' :=
                    {| processed_video_ids := Normalizer.processed_video_ids out;
                       uuid_calls := Normalizer.uuid_calls out |} in
                  if raised out then (reg', tr, NormalizeRaised)
                  else
                    match video_details_list out with
                    | [] => (reg', tr, NoNewItems)
                    | batch =>
                        if queue_set
                        then (reg', (tr ++ [QueuePut batch])%list, Enqueued)
                        else (reg', tr, QueueUnset)
                    end
              end
        end
  end.

(** The attempts made, the pauses taken and the files written in a trace. *)
Definition attempts_in (tr : list Effect) : list nat :=
  omap (λ e, match e with GetResponseBody _ a => Some a | _ => None end) tr.

Definition sleeps_in (tr : list Effect) : nat :=
  length (omap (λ e, match e with Sleep2 => Some () | _ => None end) tr).

Definition quarantine_files_in (tr : list Effect) : list string :=
  omap (λ e, match e with WriteInvalidJson r => Some r | _ => None end) tr.

Definition batches_in (tr : list Effect) : list (list VideoRecord) :=
  omap (λ e, match e with QueuePut b => Some b | _ => None end) tr.

Lemma fetch_loop_attempts request_id attempts v :
  attempts_in (fetch_loop request_id attempts v).1 `prefix_of` attempts.
Proof.
  revert v. induction attempts as [| a rest IH]; intros v; simpl; [done |].
  destruct (send a) as [b b64 | | |]; simpl; try (by apply prefix_cons, prefix_nil).
  destruct (a =? 0)%nat.
  - destruct (sleep_cancelled env); [by apply prefix_cons, prefix_nil |].
    specialize (IH v). destruct (fetch_loop request_id rest v) as [tr x]. simpl in *.
    by apply prefix_cons.
  - match goal with |- context [fetch_loop request_id rest ?w] =>
      specialize (IH w); destruct (fetch_loop request_id rest w) as [tr x] end.
    simpl in *. by apply prefix_cons.
Qed.

(** The quarantine step asks for no body, takes no pause, enqueues
    nothing, and writes the file exactly when it ends as [Quarantined]. *)
Lemma quarantine_effects request_id :
  attempts_in (quarantine request_id).1 = [] ∧
  sleeps_in (quarantine request_id).1 = 0 ∧
  batches_in (quarantine request_id).1 = [] ∧
  ((quarantine request_id).2 = Quarantined ∨ (quarantine request_id).2 = QuarantineRaised) ∧
  quarantine_files_in (quarantine request_id).1
    = (if quarantine_can_write then [request_id] else []) ∧
  ((quarantine request_id).2 = Quarantined ↔ quarantine_can_write = true).
Proof.
  unfold quarantine, quarantine_can_write.
  destruct (current_scenario_set env), (test_run_id_set env), (makedirs_raises env),
    (write_raises env); simpl; repeat split; auto; done.
Qed.

(** The trace of [handle_response]: the retry loop, then the quarantine
    step or at most one enqueue. *)
Lemma handle_response_trace request_id reg :
  ∃ tail, (handle_response request_id reg).1.2
            = ((fetch_loop request_id (seq 0 5) fetch_init).1 ++ tail)%list ∧
          attempts_in tail = [] ∧ sleeps_in tail = 0.
Proof.
  assert (Hnil : ∀ tr : list Effect,
    ∃ tail, tr = (tr ++ tail)%list ∧ attempts_in tail = [] ∧ sleeps_in tail = 0).
  { intros tr. exists []. by rewrite app_nil_r. }
  unfold handle_response.
  destruct (fetch_loop request_id (seq 0 5) fetch_init) as [tr [| v]]; simpl; [done |].
  destruct (attempt_failed v); simpl.
  { destruct (quarantine_effects request_id) as (Ha & Hs & _).
    destruct (quarantine request_id) as [tr' outcome]. simpl in *. by exists tr'. }
  destruct (body v) as [b |]; simpl; [| done].
  destruct (Py.truthy b); simpl; [| done].
  destruct (decode_and_parse b (is_base64_encoded v)) as [| [videos |]]; simpl; try done.
  destruct (raised _); simpl; [done |].
  destruct (video_details_list _) as [| r0 batch] eqn:E; simpl; [done |].
  destruct queue_set; simpl; [| done].
  by exists [QueuePut (r0 :: batch)].
Qed.

(** At most five attempts are made for a response. *)
Lemma handle_response_attempts request_id reg :
  (length (attempts_in (handle_response request_id reg).1.2) ≤ 5)%nat.
Proof.
  pose proof (fetch_loop_attempts request_id (seq 0 5) fetch_init) as Hp.
  apply prefix_length in Hp. rewrite length_seq in Hp.
  destruct (handle_response_trace request_id reg) as (tail & -> & Ha & _).
  unfold attempts_in in *. by rewrite omap_app, Ha, app_nil_r.
Qed.

(** The pause is taken at most once, and only after an empty first
    attempt. *)
Lemma fetch_loop_sleeps request_id attempts v :
  NoDup attempts →
  (sleeps_in (fetch_loop request_id attempts v).1 ≤ 1)%nat ∧
  ((0 < sleeps_in (fetch_loop request_id attempts v).1)%nat → send 0 = RespEmpty).
Proof.
  revert v. induction attempts as [| a rest IH]; intros v Hnd; simpl.
  { unfold sleeps_in. simpl. lia. }
  apply NoDup_cons in Hnd as [Ha Hnd].
  destruct (send a) as [b b64 | | |] eqn:Hs; simpl;
    try (unfold sleeps_in; csimpl; lia).
  destruct (a =? 0)%nat eqn:Ha0.
  - apply Nat.eqb_eq in Ha0. subst a.
    destruct (sleep_cancelled env); [unfold sleeps_in; csimpl; split; [lia | done] |].
    assert (Hz : sleeps_in (fetch_loop request_id rest v).1 = 0).
    { clear IH Hs. revert v. induction rest as [| c rest IH]; intros v; simpl; [done |].
      apply not_elem_of_cons in Ha as [Hc Ha]. apply NoDup_cons in Hnd as [_ Hnd].
      destruct (send c); simpl; try done.
      destruct (c =? 0)%nat eqn:Hc0; [apply Nat.eqb_eq in Hc0; congruence |].
      match goal with |- context [fetch_loop request_id rest ?w] =>
        specialize (IH Ha Hnd w); destruct (fetch_loop request_id rest w) as [tr x] end.
      simpl in *. unfold sleeps_in in *. by csimpl. }
    destruct (fetch_loop request_id rest v) as [tr x]. simpl in *.
    unfold sleeps_in in *. csimpl. split; [lia | done].
  - match goal with |- context [fetch_loop request_id rest ?w] =>
      specialize (IH w Hnd); destruct (fetch_loop request_id rest w) as [tr x] end.
    simpl in *. unfold sleeps_in in *. by csimpl.
Qed.

Lemma fetch_loop_no_files request_id attempts v :
  quarantine_files_in (fetch_loop request_id attempts v).1 = [] ∧
  batches_in (fetch_loop request_id attempts v).1 = [].
Proof.
  revert v. induction attempts as [| a rest IH]; intros v; simpl; [done |].
  destruct (send a); simpl; try done.
  destruct (a =? 0)%nat.
  - destruct (sleep_cancelled env); [done |].
    specialize (IH v). by destruct (fetch_loop request_id rest v).
  - match goal with |- context [fetch_loop request_id rest ?u] =>
      specialize (IH u); by destruct (fetch_loop request_id rest u) end.
Qed.

(** The invalid-JSON file is written exactly when the outcome is
    [Quarantined]; it is written once, for this request id, nothing is
    enqueued then and the registry is left as it was. *)
Lemma handle_response_quarantine request_id reg :
  let '(reg', tr, outcome) := handle_response request_id reg in
  (outcome = Quarantined →
     quarantine_files_in tr = [request_id] ∧ batches_in tr = [] ∧ reg' = reg) ∧
  (outcome ≠ Quarantined → quarantine_files_in tr = []).
Proof.
  pose proof (fetch_loop_no_files request_id (seq 0 5) fetch_init) as Hf.
  unfold handle_response.
  destruct (fetch_loop request_id (seq 0 5) fetch_init) as [tr [| v]];
    simpl in Hf; destruct Hf as [Hq Hb]; [done |].
  destruct (attempt_failed v).
  { destruct (quarantine_effects request_id) as (_ & _ & Hb' & _ & Hfiles & Hiff).
    destruct (quarantine request_id) as [tr' outcome]. simpl in *.
    unfold quarantine_files_in, batches_in in *. rewrite !omap_app, Hq, Hb, Hb', Hfiles.
    split.
    - intros Ho. apply Hiff in Ho. by rewrite Ho.
    - intros Ho. destruct quarantine_can_write; [| done]. exfalso. by apply Ho, Hiff. }
  destruct (body v) as [b |]; [| done].
  destruct (Py.truthy b); simpl; [| done].
  destruct (decode_and_parse b (is_base64_encoded v)) as [| [videos |]]; try done.
  destruct (raised _); [done |].
  destruct (video_details_list _); [done |].
  destruct queue_set; [| done].
  split; [done | intros _]. unfold quarantine_files_in in *.
  by rewrite omap_app, Hq.
Qed.

(** Five empty answers: five attempts, then the quarantine. *)
Lemma handle_response_all_empty request_id reg :
  (∀ a, (a < 5)%nat → send a = RespEmpty) →
  sleep_cancelled env = false → current_scenario_set env = true →
  test_run_id_set env = true → write_raises env = false →
  handle_response request_id reg =
    (reg,
     [GetResponseBody request_id 0; Sleep2; GetResponseBody request_id 1;
      GetResponseBody request_id 2; GetResponseBody request_id 3;
      GetResponseBody request_id 4; WriteInvalidJson request_id],
     Quarantined).
Proof.
  intros H Hsl Hcs Htr Hwr. unfold handle_response, quarantine. simpl.
  rewrite !H by lia. simpl. by rewrite Hsl, Hcs, Htr, Hwr.
Qed.

(** A body delivered at the first attempt, or at the second after one empty
    answer, is parsed unless the pause is cancelled. *)
Lemma handle_response_early_body request_id reg b b64 :
  (send 0 = RespBody b b64 ∨ send 0 = RespEmpty ∧ send 1 = RespBody b b64) →
  Py.truthy b = true →
  (handle_response request_id reg).2 ≠ Quarantined.
Proof.
  intros Hs Hb. unfold handle_response. simpl.
  destruct Hs as [-> | [-> ->]]; simpl; [| destruct (sleep_cancelled env); [done |]];
    simpl; rewrite Hb; simpl;
    destruct (decode_and_parse b b64) as [| [videos |]]; try done;
    destruct (raised _); try done;
    destruct (video_details_list _); try done; by destruct queue_set.
Qed.

(** An empty answer at the second attempt or later marks the response as
    failed for good: a body that arrives afterwards is not used, and the
    handler enters the quarantine step. *)
Lemma late_empty_answer_fails request_id a :
  (0 < a < 5)%nat → send a = RespEmpty →
  (∀ c, (c < a)%nat → send c = RespEmpty) →
  (∀ c, (a < c < 5)%nat → send c ≠ RaisesCancelled) →
  sleep_cancelled env = false →
  ∃ tr w, fetch_loop request_id (seq 0 5) fetch_init = (tr, LoopDone w)
          ∧ attempt_failed w = true.
Proof.
  intros Ha Hs Hempty Hafter Hsl.
  assert (Hsticky : ∀ attempts v, attempt_failed v = true →
    (∀ c, c ∈ attempts → send c ≠ RaisesCancelled ∧ c ≠ 0%nat) →
    ∃ tr w, fetch_loop request_id attempts v = (tr, LoopDone w) ∧ attempt_failed w = true).
  { induction attempts as [| c rest IH]; intros v Hv Hc; simpl; [by eauto |].
    assert (Hrest : ∀ c', c' ∈ rest → send c' ≠ RaisesCancelled ∧ c' ≠ 0%nat)
      by (intros; apply Hc; by right).
    destruct (Hc c) as [Hnc Hc0]; [by left |].
    destruct (send c) eqn:Hsc; simpl; try (by eauto).
    apply Nat.eqb_neq in Hc0. rewrite Hc0.
    destruct (IH {| body := body v; is_base64_encoded := is_base64_encoded v;
                    attempt_failed := true |} eq_refl Hrest) as (tr & w & -> & Hw).
    eauto. }
  assert (Hcases : a = 1 ∨ a = 2 ∨ a = 3 ∨ a = 4) by lia.
  assert (H0 : send 0 = RespEmpty) by (apply Hempty; lia).
  destruct Hcases as [-> | [-> | [-> | ->]]]; simpl; rewrite H0, Hsl; simpl.
  - rewrite Hs.
    destruct (Hsticky [2; 3; 4] {| body := None; is_base64_encoded := false;
      attempt_failed := true |} eq_refl) as (tr & w & Heq & Hw).
    { intros c Hc. split; [apply Hafter |]; set_solver by lia. }
    simpl in Heq. rewrite Heq. eauto.
  - rewrite (Hempty 1) by lia. rewrite Hs.
    destruct (Hsticky [3; 4] {| body := None; is_base64_encoded := false;
      attempt_failed := true |} eq_refl) as (tr & w & Heq & Hw).
    { intros c Hc. split; [apply Hafter |]; set_solver by lia. }
    simpl in Heq. rewrite Heq. eauto.
  - rewrite (Hempty 1), (Hempty 2) by lia. rewrite Hs.
    destruct (Hsticky [4] {| body := None; is_base64_encoded := false;
      attempt_failed := true |} eq_refl) as (tr & w & Heq & Hw).
    { intros c Hc. split; [apply Hafter |]; set_solver by lia. }
    simpl in Heq. rewrite Heq. eauto.
  - rewrite (Hempty 1), (Hempty 2), (Hempty 3) by lia. rewrite Hs. eauto.
Qed.

(** [attempt_failed] is set only by an attempt that raised or, past the
    first, returned an empty answer. *)
Lemma fetch_loop_failed request_id attempts v :
  match fetch_loop request_id attempts v with
  | (tr, LoopDone w) =>
      attempt_failed w = true →
      attempt_failed v = true ∨
      ∃ a, a ∈ attempts_in tr ∧
           (send a = RaisesError ∨ (0 < a)%nat ∧ send a = RespEmpty)
  | (_, LoopCancelled) => True
  end.
Proof.
  revert v. induction attempts as [| a rest IH]; intros v; simpl; [by left |].
  destruct (send a) as [b b64 | | |] eqn:Hs; simpl; [by left | | done |].
  - destruct (a =? 0)%nat eqn:Ha0.
    + destruct (sleep_cancelled env); [done |].
      specialize (IH v). destruct (fetch_loop request_id rest v) as [tr [| w]]; [done |].
      intros Hw. destruct (IH Hw) as [? | (c & Hc & Hcase)]; [by left | right].
      exists c. split; [| done]. unfold attempts_in in *. csimpl. by right.
    + apply Nat.eqb_neq in Ha0.
      match goal with |- context [fetch_loop request_id rest ?u] =>
        specialize (IH u); destruct (fetch_loop request_id rest u) as [tr [| w]] end;
        [done |].
      intros _. right. exists a. split; [unfold attempts_in; csimpl; by left |].
      right. split; [lia | done].
  - intros _. right. exists a. split; [unfold attempts_in; csimpl; by left | by left].
Qed.

(** ** Effects of [handle_response] by outcome *)

(** X4.  [handle_response] asks for the body at most five times, with the
    attempt numbers 0, 1, ... in order; it pauses at most once, and only
    after an empty answer to the first attempt. *)
Theorem body_fetch_is_bounded (request_id : string) (reg : Registry) :
  let tr := (handle_response request_id reg).1.2 in
  attempts_in tr `prefix_of` [0; 1; 2; 3; 4]%nat ∧
  (sleeps_in tr ≤ 1)%nat ∧
  (sleeps_in tr = 0%nat ∨ send 0 = RespEmpty).
Proof.
  intros tr. subst tr.
  destruct (handle_response_trace request_id reg) as (tail & -> & Hta & Hts).
  assert (Ha : attempts_in ((fetch_loop request_id (seq 0 5) fetch_init).1 ++ tail)
               = attempts_in (fetch_loop request_id (seq 0 5) fetch_init).1).
  { unfold attempts_in in *. by rewrite omap_app, Hta, app_nil_r. }
  assert (Hs : sleeps_in ((fetch_loop request_id (seq 0 5) fetch_init).1 ++ tail)
               = sleeps_in (fetch_loop request_id (seq 0 5) fetch_init).1).
  { unfold sleeps_in in *. rewrite omap_app, length_app, Hts. lia. }
  rewrite Ha, Hs.
  split; [apply (fetch_loop_attempts request_id (seq 0 5) fetch_init) |].
  destruct (fetch_loop_sleeps request_id (seq 0 5) fetch_init) as [H1 H2].
  { apply NoDup_seq. }
  split; [done |].
  destruct (sleeps_in (fetch_loop request_id (seq 0 5) fetch_init).1) as [| n] eqn:E;
    [by left | right].
  apply H2. lia.
Qed.

(** X5.  An invalid-JSON file is written only for a response one of whose
    body requests failed: either no file is written, or exactly one is, for
    the request id of the call, and then some attempt that was made raised
    an error or, past the first attempt, returned an empty answer; the
    scenario global was set and the write did not raise; nothing is
    enqueued and the registry of video ids is left as it was. *)
Theorem quarantine_needs_a_failed_attempt (request_id : string) (reg : Registry) :
  let res := handle_response request_id reg in
  quarantine_files_in res.1.2 = [] ∨
  quarantine_files_in res.1.2 = [request_id] ∧
  batches_in res.1.2 = [] ∧ res.1.1 = reg ∧
  current_scenario_set env = true ∧ write_raises env = false ∧
  ∃ a, a ∈ attempts_in res.1.2 ∧ (a < 5)%nat ∧
       (send a = RaisesError ∨ (0 < a)%nat ∧ send a = RespEmpty).
Proof.
  intros res. subst res.
  pose proof (fetch_loop_no_files request_id (seq 0 5) fetch_init) as [Hq Hb].
  pose proof (fetch_loop_failed request_id (seq 0 5) fetch_init) as Hfail.
  pose proof (fetch_loop_attempts request_id (seq 0 5) fetch_init) as Hpre.
  unfold handle_response.
  destruct (fetch_loop request_id (seq 0 5) fetch_init) as [tr [| v]]; simpl in *;
    [by left |].
  destruct (attempt_failed v) eqn:Hv.
  - destruct (quarantine_effects request_id) as (Ha' & _ & Hb' & _ & Hfiles & _).
    destruct (quarantine request_id) as [tr' outcome]. simpl in *.
    unfold quarantine_files_in, batches_in, attempts_in in *.
    rewrite !omap_app, Hq, Hb, Hb', Ha', Hfiles, app_nil_r. simpl.
    destruct quarantine_can_write eqn:Hcan; [right | by left].
    unfold quarantine_can_write in Hcan.
    apply andb_true_iff in Hcan as [[Hcs _]%andb_true_iff Hwr%negb_true_iff].
    repeat (split; [done |]).
    destruct (Hfail eq_refl) as [? | (a & Ha & Hcase)]; [done |].
    exists a. rewrite ?app_nil_r. split; [done |]. split; [| done].
    assert (Hin : a ∈ seq 0 5) by (by eapply elem_of_prefix).
    apply elem_of_seq in Hin. lia.
  - left. destruct (body v) as [b |]; simpl; [| done].
    destruct (Py.truthy b); simpl; [| done].
    destruct (decode_and_parse b (is_base64_encoded v)) as [| [videos |]]; simpl; try done.
    destruct (raised _); simpl; [done |].
    destruct (video_details_list _); simpl; [done |].
    destruct queue_set; simpl; [| done].
    unfold quarantine_files_in in *. by rewrite omap_app, Hq.
Qed.

(** X6.  When the fetch is cancelled, when no body came back, when the body
    does not parse, and when the parsed object has no item list, the handler
    returns without any file written, without anything enqueued and with
    the registry unchanged. *)
Theorem early_returns_have_no_effect (request_id : string) (reg : Registry) :
  let res := handle_response request_id reg in
  match res.2 with
  | Cancelled | BodyStillNone | ParseFailed | ItemListMissing =>
      quarantine_files_in res.1.2 = [] ∧ batches_in res.1.2 = [] ∧ res.1.1 = reg
  | _ => True
  end.
Proof.
  intros res. subst res. unfold handle_response.
  destruct (fetch_loop_no_files request_id (seq 0 5) fetch_init) as [Hq Hb].
  destruct (fetch_loop request_id (seq 0 5) fetch_init) as [tr [| v]]; simpl in *; [done |].
  destruct (attempt_failed v); simpl.
  { destruct (quarantine_effects request_id) as (_ & _ & _ & Ho & _).
    destruct (quarantine request_id) as [tr' outcome]. simpl in *.
    by destruct Ho as [-> | ->]. }
  destruct (body v) as [b |]; simpl; [| done].
  destruct (Py.truthy b); simpl; [| done].
  destruct (decode_and_parse b (is_base64_encoded v)) as [| [videos |]]; simpl; try done.
  destruct (raised _); simpl; [done |].
  destruct (video_details_list _); simpl; [done |].
  by destruct queue_set.
Qed.

(** X7.  At most one batch is enqueued per response, and exactly when the
    outcome is [Enqueued].  An enqueued batch is not empty, the video ids
    of its records are pairwise distinct, none of them was registered
    before the call and all of them are registered after it.  Whatever the
    outcome, no video id is removed from the registry. *)
Theorem enqueued_batch_is_new_and_registered (request_id : string) (reg : Registry) :
  let res := handle_response request_id reg in
  processed_video_ids reg ⊆ processed_video_ids res.1.1 ∧
  match res.2 with
  | Enqueued =>
      ∃ batch, batches_in res.1.2 = [batch] ∧ batch ≠ [] ∧
               NoDup (video_id <$> batch) ∧
               Forall (λ r, (video_id r ∉ processed_video_ids reg) ∧
                            video_id r ∈ processed_video_ids res.1.1) batch
  | _ => batches_in res.1.2 = []
  end.
Proof.
  intros res. subst res. unfold handle_response.
  destruct (fetch_loop_no_files request_id (seq 0 5) fetch_init) as [Hq Hb].
  destruct (fetch_loop request_id (seq 0 5) fetch_init) as [tr [| v]]; simpl in *; [done |].
  destruct (attempt_failed v); simpl.
  { destruct (quarantine_effects request_id) as (_ & _ & Hb' & Ho & _).
    destruct (quarantine request_id) as [tr' outcome]. simpl in *.
    split; [done |]. unfold batches_in in *. rewrite omap_app, Hb, Hb'.
    by destruct Ho as [-> | ->]. }
  destruct (body v) as [b |]; simpl; [| done].
  destruct (Py.truthy b); simpl; [| done].
  destruct (decode_and_parse b (is_base64_encoded v)) as [| [videos |]]; simpl; try done.
  destruct (normalize_spec uuid4 (processed_video_ids reg) (uuid_calls reg) videos)
    as (Hsub & _ & Hnd & _ & Hmem & _).
  destruct (raised _); simpl; [done |].
  destruct (video_details_list _) as [| r0 batch] eqn:E; simpl; [done |].
  destruct queue_set; simpl; (split; [done |]); [| done].
  exists (r0 :: batch). split; [unfold batches_in in *; by rewrite omap_app, Hb |].
  split; [done |]. split; [done |].
  apply Forall_forall. intros r Hr. apply Hmem. by apply list_elem_of_fmap_2.
Qed.

(** X8.  When the queue has not been set and the response carries new
    videos, the batch is dropped but its video ids stay registered: the
    registry has grown, and no later response processed against this
    registry (or a larger one) emits a record with a registered id. *)
Theorem unset_queue_loses_the_batch (request_id : string) (reg : Registry)
    (later : gset string) (k2 : nat) (videos2 : list Item.t) :
  let res := handle_response request_id reg in
  match res.2 with
  | QueueUnset =>
      queue_set = false ∧ batches_in res.1.2 = [] ∧
      processed_video_ids reg ≠ processed_video_ids res.1.1 ∧
      Forall (λ r, video_id r ∉ processed_video_ids res.1.1)
             (video_details_list
                (normalize uuid4 (processed_video_ids res.1.1 ∪ later) k2 videos2))
  | _ => True
  end.
Proof.
  intros res. subst res. unfold handle_response.
  destruct (fetch_loop_no_files request_id (seq 0 5) fetch_init) as [Hq Hb].
  destruct (fetch_loop request_id (seq 0 5) fetch_init) as [tr [| v]]; simpl in *; [done |].
  destruct (attempt_failed v); simpl.
  { destruct (quarantine_effects request_id) as (_ & _ & _ & Ho & _).
    destruct (quarantine request_id) as [tr' outcome]. simpl in *.
    by destruct Ho as [-> | ->]. }
  destruct (body v) as [b |]; simpl; [| done].
  destruct (Py.truthy b); simpl; [| done].
  destruct (decode_and_parse b (is_base64_encoded v)) as [| [videos |]]; simpl; try done.
  destruct (normalize_spec uuid4 (processed_video_ids reg) (uuid_calls reg) videos)
    as (_ & _ & _ & _ & Hmem & _).
  destruct (raised _); simpl; [done |].
  destruct (video_details_list _) as [| r0 batch] eqn:E; simpl; [done |].
  destruct queue_set; simpl; [done |].
  split; [done |]. split; [done |]. split.
  - destruct (Hmem (video_id r0)) as [Hnew Hreg]; [by left |].
    intros Heq. apply Hnew. by rewrite Heq.
  - apply Forall_forall. intros r Hr%normalize_emits_unregistered.
    set_solver.
Qed.

(** X9.  An empty answer at the second, third, fourth or fifth attempt
    makes the response unrecoverable: provided the earlier attempts were
    empty too, the pause after the first one is not cancelled, no later
    attempt is cancelled and the quarantine step can write its file (the
    scenario global is set, the folder and the file can be written), the
    outcome is the quarantine, also when a later attempt delivers the
    body. *)
Theorem empty_answer_after_first_attempt_quarantines (request_id : string)
    (reg : Registry) (a : nat) :
  (0 < a < 5)%nat → send a = RespEmpty →
  (∀ c, (c < a)%nat → send c = RespEmpty) →
  (∀ c, (a < c < 5)%nat → send c ≠ RaisesCancelled) →
  sleep_cancelled env = false →
  quarantine_can_write = true →
  (handle_response request_id reg).2 = Quarantined ∧
  quarantine_files_in (handle_response request_id reg).1.2 = [request_id] ∧
  batches_in (handle_response request_id reg).1.2 = [].
Proof.
  intros Ha Hs Hbefore Hafter Hsl Hcan.
  assert (Hq : (handle_response request_id reg).2 = Quarantined).
  { destruct (late_empty_answer_fails request_id a Ha Hs Hbefore Hafter Hsl)
      as (tr & w & Heq & Hw).
    unfold handle_response. rewrite Heq, Hw.
    destruct (quarantine_effects request_id) as (_ & _ & _ & _ & _ & Hiff).
    destruct (quarantine request_id) as [tr' outcome]. simpl in *. by apply Hiff. }
  pose proof (handle_response_quarantine request_id reg) as H.
  destruct (handle_response request_id reg) as [[reg' tr] outcome]. simpl in *.
  destruct H as [H _]. destruct (H Hq) as (? & ? & ?). done.
Qed.

(** X10.  A non-empty body delivered at the first attempt, or at the second
    after an empty first answer, is never quarantined: no invalid-JSON
    file is written for it. *)
Theorem early_body_is_not_quarantined (request_id : string) (reg : Registry)
    (b : string) (b64 : bool) :
  (send 0 = RespBody b b64 ∨ send 0 = RespEmpty ∧ send 1 = RespBody b b64) →
  Py.truthy b = true →
  (handle_response request_id reg).2 ≠ Quarantined ∧
  quarantine_files_in (handle_response request_id reg).1.2 = [].
Proof.
  intros Hs Hb.
  pose proof (handle_response_early_body request_id reg b b64 Hs Hb) as Hne.
  pose proof (handle_response_quarantine request_id reg) as H.
  destruct (handle_response request_id reg) as [[reg' tr] outcome]. simpl in *.
  destruct H as [_ H]. split; [done | by apply H].
Qed.

End HandleResponse.
End Response.

(* ===================================================================== *)
(** * Effects of the browsing side                                        *)
(* ===================================================================== *)

Module Trace.

(** What [tab.evaluate] answers to a click script. *)
Inductive ClickResult :=
| Clicked          (* the script returned true *)
| ButtonMissing    (* the script returned false *)
| EvaluateRaises.  (* the call raised *)

(** What writing [followed.json] does. *)
Inductive IoResult :=
| WriteOk
| OpenFails        (* open(..., "w") raised: caught in add_followed_user, file untouched *)
| DumpFails        (* json.dump raised after open(..., "w") had truncated the file:
                      caught in add_followed_user *)
| MkdirFails.      (* mkdir raised: caught in follow_user *)

Inductive Effect :=
| Screenshot (index : nat)                                (* screenshots/<index>.jpeg *)
| SkipScreenshot (index : nat)                            (* streams_ads/<index>.jpeg *)
| StoreBatch (batch_count : nat)                          (* request/response JSON *)
| ClickLike (video_index : nat) (result : ClickResult)
| ClickFollow (video_index : nat) (result : ClickResult)
| WriteFollowed (author_id : string) (result : IoResult)  (* followed.json rewritten *)
| Watch (video_index : nat) (video_id : string) (coefficient desired remaining : Q)
| StoreInteraction (action_type video_id : string).

End Trace.

(* ===================================================================== *)
(** * FollowState: the followed-users store                               *)
(* ===================================================================== *)

Module Follow.
Import Trace.

(** The module global [followed_users], and [followed_users/followed.json]
    of the scenario as [load_followed_users] reads it: [None] when there is
    no file, [Some s] when loading the file yields the set [s].  A file
    that does not parse (left truncated by a failed dump) loads as the empty
    set, the [except] clause of the load keeping the emptied set. *)
Record FollowState := {
  followed_users : gset string;
  followed_file : option (gset string);
}.

(** [load_followed_users]: the set is emptied, then filled from the file
    when there is one. *)
Definition load_followed_users (st : FollowState) : FollowState :=
  {| followed_users := default ∅ (followed_file st);
     followed_file := followed_file st |}.

(** [add_followed_user]: the identifier is added in memory, then the whole
    set is written over the file. *)
Definition add_followed_user (user_id : string) (io : IoResult) (st : FollowState)
  : FollowState :=
  let mem := {[user_id]} ∪ followed_users st in
  {| followed_users := mem;
     followed_file :=
       match io with
       | WriteOk => Some mem
       | DumpFails => Some ∅
       | OpenFails | MkdirFails => followed_file st
       end |}.

Definition is_user_followed (user_id : string) (st : FollowState) : bool :=
  bool_decide (user_id ∈ followed_users st).

(** [VideoInteractor.follow_user] for the author [author_id] of the
    interactor's video at [video_index]; the result carries the new value of
    [self.followed_author] when it is set. *)
Definition follow_user (author_id : string) (video_index : nat)
    (click : ClickResult) (io : IoResult) (st : FollowState)
  : FollowState * bool * list Effect :=
  if Py.truthy author_id && is_user_followed author_id st then (st, false, [])
  else
    match click with
    | Clicked =>
        (add_followed_user author_id io st,
         match io with MkdirFails => false | _ => true end,
         [ClickFollow video_index Clicked; WriteFollowed author_id io])
    | ButtonMissing => (st, false, [ClickFollow video_index ButtonMissing])
    | EvaluateRaises => (st, false, [ClickFollow video_index EvaluateRaises])
    end.

(** The targets of the successful persistence writes of a trace. *)
Definition persisted (tr : list Effect) : list string :=
  omap (λ e, match e with WriteFollowed a WriteOk => Some a | _ => None end) tr.

Definition follow_clicks (tr : list Effect) : list nat :=
  omap (λ e, match e with ClickFollow k _ => Some k | _ => None end) tr.

(** A scenario seen from the store: interactors are created (each
    construction reloads the store) and asked to follow.  A new run of the
    scenario starts with an arbitrary in-memory set and creates an
    interactor before any follow, which is the same as [NewInteractor] since
    loading discards the in-memory set. *)
Inductive Op :=
| NewInteractor
| FollowUser (author_id : string) (video_index : nat) (click : ClickResult) (io : IoResult).

Definition step (op : Op) (st : FollowState) : FollowState * list Effect :=
  match op with
  | NewInteractor => (load_followed_users st, [])
  | FollowUser a k click io => let '(st', _, tr) := follow_user a k click io st in (st', tr)
  end.

Fixpoint run (ops : list Op) (st : FollowState) : FollowState * list Effect :=
  match ops with
  | [] => (st, [])
  | op :: rest =>
      let '(st1, tr1) := step op st in
      let '(st2, tr2) := run rest st1 in
      (st2, (tr1 ++ tr2)%list)
  end.

(** What the file holds is known in memory. *)
Definition file_in_memory (st : FollowState) : Prop :=
  default ∅ (followed_file st) ⊆ followed_users st.

(** No write of the file fails after truncating it. *)
Definition truncates (op : Op) : Prop :=
  match op with FollowUser _ _ _ DumpFails => True | _ => False end.

Definition write_never_truncates (ops : list Op) : Prop :=
  Forall (λ op, ¬ truncates op) ops.

Definition count_of (a : string) (l : list string) : nat :=
  length (filter (λ x, x = a) l).

Lemma follow_user_noop a k click io st :
  Py.truthy a = true → a ∈ followed_users st →
  follow_user a k click io st = (st, false, []).
Proof.
  intros Ht Hin. unfold follow_user, is_user_followed.
  by rewrite Ht, bool_decide_eq_true_2.
Qed.

Lemma follow_user_write_needs_click a k click io st target res :
  WriteFollowed target res ∈ (follow_user a k click io st).2 →
  click = Clicked ∧ target = a ∧ (Py.truthy a = false ∨ a ∉ followed_users st).
Proof.
  unfold follow_user, is_user_followed.
  destruct (Py.truthy a) eqn:Ht; simpl.
  - case_bool_decide as Hin; simpl.
    + by intros ?%elem_of_nil.
    + destruct click; simpl; intros Hm; apply list_elem_of_In in Hm; simpl in Hm;
        intuition; simplify_eq; auto.
  - destruct click; simpl; intros Hm; apply list_elem_of_In in Hm; simpl in Hm;
      intuition; simplify_eq; auto.
Qed.

Lemma follow_user_file_in_memory a k click io st :
  file_in_memory st → file_in_memory (follow_user a k click io st).1.1.
Proof.
  unfold file_in_memory, follow_user, add_followed_user.
  destruct (Py.truthy a && is_user_followed a st); [done |].
  destruct click; simpl; [| done | done].
  destruct io; simpl; set_solver.
Qed.

Lemma follow_user_file_grows a k click io st :
  io ≠ DumpFails → file_in_memory st →
  default ∅ (followed_file st) ⊆ default ∅ (followed_file (follow_user a k click io st).1.1).
Proof.
  unfold file_in_memory, follow_user, add_followed_user.
  destruct (Py.truthy a && is_user_followed a st); [done |].
  destruct click; simpl; [| done | done].
  destruct io; simpl; try done; set_solver.
Qed.

Lemma follow_user_persisted a k click io st :
  persisted (follow_user a k click io st).2 = [] ∨
  persisted (follow_user a k click io st).2 = [a] ∧
  a ∈ default ∅ (followed_file (follow_user a k click io st).1.1) ∧
  (Py.truthy a = false ∨ a ∉ followed_users st).
Proof.
  unfold follow_user, add_followed_user, is_user_followed.
  destruct (Py.truthy a) eqn:Ht; simpl.
  - case_bool_decide as Hin; simpl; [by left |].
    destruct click; simpl; try (by left).
    destruct io; simpl; try (by left). right. set_solver.
  - destruct click; simpl; try (by left).
    destruct io; simpl; try (by left). right. set_solver.
Qed.

Lemma step_file_in_memory op st : file_in_memory st → file_in_memory (step op st).1.
Proof.
  destruct op as [| a k click io]; simpl.
  - intros _. unfold file_in_memory, load_followed_users. by simpl.
  - intros H. pose proof (follow_user_file_in_memory a k click io st H).
    by destruct (follow_user a k click io st) as [[st' b] tr].
Qed.

Lemma step_file_grows op st :
  ¬ truncates op → file_in_memory st →
  default ∅ (followed_file st) ⊆ default ∅ (followed_file (step op st).1).
Proof.
  destruct op as [| a k click io]; simpl; [done |].
  intros Hio H.
  assert (Hne : io ≠ DumpFails) by (intros ->; by apply Hio).
  pose proof (follow_user_file_grows a k click io st Hne H).
  by destruct (follow_user a k click io st) as [[st' b] tr].
Qed.

Lemma step_persisted op st :
  ∀ a, a ∈ persisted (step op st).2 →
       a ∈ default ∅ (followed_file (step op st).1) ∧
       (Py.truthy a = false ∨ a ∉ followed_users st).
Proof.
  destruct op as [| b k click io]; simpl; [by intros a ?%elem_of_nil |].
  intros a. pose proof (follow_user_persisted b k click io st) as Hp.
  destruct (follow_user b k click io st) as [[st' fl] tr]. simpl in *.
  destruct Hp as [-> | (-> & Hf & Hnew)]; [by intros ?%elem_of_nil |].
  by intros ->%list_elem_of_singleton.
Qed.

Lemma count_of_app a l1 l2 : count_of a (l1 ++ l2) = (count_of a l1 + count_of a l2)%nat.
Proof. unfold count_of. by rewrite filter_app, length_app. Qed.

Lemma count_of_zero a l : a ∉ l → count_of a l = 0.
Proof.
  unfold count_of. induction l as [| x l IH]; [done |].
  intros [Hx Hl]%not_elem_of_cons. rewrite filter_cons_False by congruence. by apply IH.
Qed.

Lemma step_persisted_count a op st :
  (count_of a (persisted (step op st).2) ≤ 1)%nat.
Proof.
  destruct op as [| b k click io]; simpl; [unfold count_of; simpl; lia |].
  pose proof (follow_user_persisted b k click io st) as Hp.
  destruct (follow_user b k click io st) as [[st' fl] tr]. simpl in *.
  destruct Hp as [-> | (-> & _)]; unfold count_of; simpl; [lia |].
  destruct (decide (b = a)).
  - rewrite filter_cons_True by done. simpl. lia.
  - rewrite filter_cons_False by done. simpl. lia.
Qed.

Lemma persisted_app tr1 tr2 : persisted (tr1 ++ tr2) = (persisted tr1 ++ persisted tr2)%list.
Proof. unfold persisted. by rewrite omap_app. Qed.

(** While no write truncates the file, the file only grows and holds every
    identifier written since. *)
Lemma run_file_grows ops st :
  write_never_truncates ops → file_in_memory st →
  default ∅ (followed_file st) ⊆ default ∅ (followed_file (run ops st).1) ∧
  ∀ a, a ∈ persisted (run ops st).2 → a ∈ default ∅ (followed_file (run ops st).1).
Proof.
  intros Hops. revert st. induction Hops as [| op rest Hop Hrest IH]; intros st Hinv; simpl.
  { split; [done | by intros a ?%elem_of_nil]. }
  pose proof (step_file_in_memory op st Hinv) as Hinv1.
  pose proof (step_file_grows op st Hop Hinv) as Hg1.
  pose proof (step_persisted op st) as Hp1.
  destruct (step op st) as [st1 tr1]. simpl in *.
  destruct (IH st1 Hinv1) as [Hg2 Hp2].
  destruct (run rest st1) as [st2 tr2]. simpl in *.
  split; [set_solver |].
  intros a. rewrite persisted_app, elem_of_app. intros [Ha | Ha]; [| by apply Hp2].
  apply Hg2. by apply Hp1.
Qed.

(** An identifier that the file already holds is not written again. *)
Lemma run_no_rewrite a ops st :
  Py.truthy a = true → write_never_truncates ops → file_in_memory st →
  a ∈ default ∅ (followed_file st) →
  count_of a (persisted (run ops st).2) = 0.
Proof.
  intros Ht Hops. revert st.
  induction Hops as [| op rest Hop Hrest IH]; intros st Hinv Hfile; simpl; [done |].
  pose proof (step_file_in_memory op st Hinv) as Hinv1.
  pose proof (step_file_grows op st Hop Hinv) as Hg1.
  pose proof (step_persisted op st a) as Hp1.
  destruct (step op st) as [st1 tr1]. simpl in *.
  specialize (IH st1 Hinv1 (Hg1 _ Hfile)).
  destruct (run rest st1) as [st2 tr2]. simpl in *.
  rewrite persisted_app, count_of_app, IH. rewrite count_of_zero; [done |].
  intros Hin. destruct (Hp1 Hin) as [_ [Hf | Hn]]; [congruence |].
  apply Hn, Hinv, Hfile.
Qed.

Lemma run_at_most_one_write a ops st :
  Py.truthy a = true → write_never_truncates ops → file_in_memory st →
  (count_of a (persisted (run ops st).2) ≤ 1)%nat.
Proof.
  intros Ht Hops. revert st.
  induction Hops as [| op rest Hop Hrest IH]; intros st Hinv; simpl;
    [unfold count_of; simpl; lia |].
  pose proof (step_file_in_memory op st Hinv) as Hinv1.
  pose proof (step_persisted op st a) as Hp1.
  pose proof (step_persisted_count a op st) as Hc1.
  pose proof (run_no_rewrite a rest (step op st).1 Ht Hrest) as Hno.
  destruct (step op st) as [st1 tr1]. simpl in *.
  specialize (IH st1 Hinv1). specialize (Hno Hinv1).
  destruct (run rest st1) as [st2 tr2]. simpl in *.
  rewrite persisted_app, count_of_app.
  destruct (decide (a ∈ persisted tr1)) as [Hin | Hnin].
  - destruct (Hp1 Hin) as [Hfile _]. rewrite (Hno Hfile). lia.
  - rewrite (count_of_zero a (persisted tr1) Hnin). lia.
Qed.

(** C5 (amended).  For a non-empty author identifier that is present in
    FollowState, [follow_user] is a no-op: no click, no write, the store
    unchanged.  A persistence write is issued only after the click was
    reported successful, and its target is the interactor's author.  Over
    any sequence of interactor constructions and [follow_user] calls of a
    scenario in which no write of the file fails after truncating it, a
    non-empty author identifier is the target of at most one successful
    persistence write, and of none when the file already holds it. *)
Theorem follow_user_never_refollows (a : string) :
  Py.truthy a = true →
  (∀ k click io st, a ∈ followed_users st →
     follow_user a k click io st = (st, false, [])) ∧
  (∀ b k click io st target res,
     WriteFollowed target res ∈ (follow_user b k click io st).2 →
     click = Clicked ∧ target = b) ∧
  (∀ ops st, write_never_truncates ops →
     (count_of a (persisted (run (NewInteractor :: ops) st).2) ≤ 1)%nat) ∧
  (∀ ops st, write_never_truncates ops → a ∈ default ∅ (followed_file st) →
     count_of a (persisted (run (NewInteractor :: ops) st).2) = 0).
Proof.
  intros Ht. split; [intros; by apply follow_user_noop |].
  split.
  { intros b k click io st target res H.
    apply follow_user_write_needs_click in H. tauto. }
  assert (Hload : ∀ st, file_in_memory (load_followed_users st)).
  { intros st. unfold file_in_memory, load_followed_users. by simpl. }
  split.
  - intros ops st Hops. simpl.
    pose proof (run_at_most_one_write a ops (load_followed_users st) Ht Hops (Hload st)).
    by destruct (run ops (load_followed_users st)).
  - intros ops st Hops Hfile. simpl.
    pose proof (run_no_rewrite a ops (load_followed_users st) Ht Hops (Hload st) Hfile).
    by destruct (run ops (load_followed_users st)).
Qed.

Lemma follow_user_never_refollows_witness :
  let st := {| followed_users := {["6801"]}; followed_file := Some {["6801"]} |} in
  let ops := [FollowUser "77" 0 Clicked WriteOk; FollowUser "6801" 1 Clicked OpenFails;
              FollowUser "77" 2 Clicked WriteOk; NewInteractor;
              FollowUser "77" 3 Clicked WriteOk; FollowUser "6801" 4 Clicked WriteOk;
              NewInteractor; FollowUser "6801" 5 Clicked WriteOk] in
  Py.truthy "6801" = true ∧
  follow_user "6801" 4 Clicked WriteOk st = (st, false, []) ∧
  write_never_truncates ops ∧
  persisted (run (NewInteractor :: ops) {| followed_users := ∅; followed_file := None |}).2
    = ["77"; "6801"] ∧
  (count_of "6801"
     (persisted (run (NewInteractor :: ops)
                     {| followed_users := ∅; followed_file := None |}).2) ≤ 1)%nat ∧
  (count_of "77"
     (persisted (run (NewInteractor :: ops)
                     {| followed_users := ∅; followed_file := None |}).2) ≤ 1)%nat.
Proof.
  intros st ops.
  assert (Hops : write_never_truncates ops) by (repeat constructor; by intros []).
  split; [reflexivity |].
  split.
  { apply (proj1 (follow_user_never_refollows "6801" eq_refl)).
    subst st. simpl. set_solver. }
  split; [exact Hops |]. split; [vm_compute; reflexivity |].
  split.
  - exact (proj1 (proj2 (proj2 (follow_user_never_refollows "6801" eq_refl))) ops _ Hops).
  - exact (proj1 (proj2 (proj2 (follow_user_never_refollows "77" eq_refl))) ops _ Hops).
Defined.

(** C5 as stated fails for the empty author identifier: the test
    [author_id and is_user_followed(author_id)] lets it through although the
    store holds it, so the click is delegated and the file is written again. *)
Lemma empty_author_id_is_refollowed :
  let st := {| followed_users := {[EmptyString]}; followed_file := Some {[EmptyString]} |} in
  EmptyString ∈ followed_users st ∧
  follow_user EmptyString 4 Clicked WriteOk st =
    (st, true, [ClickFollow 4 Clicked; WriteFollowed EmptyString WriteOk]) ∧
  count_of EmptyString
    (persisted (run [NewInteractor; FollowUser EmptyString 0 Clicked WriteOk;
                     FollowUser EmptyString 1 Clicked WriteOk]
                {| followed_users := ∅; followed_file := None |}).2) = 2.
Proof.
  split; [simpl; set_solver |].
  split.
  - unfold follow_user, add_followed_user. simpl.
    by replace ({[EmptyString; EmptyString]} : gset string)
      with ({[EmptyString]} : gset string) by set_solver.
  - vm_compute. reflexivity.
Qed.

(** A dump that fails after the file was opened for writing empties the
    file: the next interactor loads an empty set and an author whose follow
    had been written before is followed and written again. *)
Lemma truncating_write_allows_refollow :
  persisted (run [NewInteractor; FollowUser "6801" 0 Clicked WriteOk;
                  FollowUser "77" 1 Clicked DumpFails; NewInteractor;
                  FollowUser "6801" 2 Clicked WriteOk]
                 {| followed_users := ∅; followed_file := None |}).2
  = ["6801"; "6801"].
Proof. vm_compute. reflexivity. Qed.

(** ** Persisting and reloading the store *)

(** X14.  A follow that was written to the file survives a reload: after
    [add_followed_user] with a successful write, the user is followed, and
    [load_followed_users] yields, in memory and on file, the previous
    in-memory set with the user added; loading once more changes nothing. *)
Theorem followed_user_survives_reload (user_id : string) (st : FollowState) :
  let st1 := add_followed_user user_id WriteOk st in
  is_user_followed user_id st1 = true ∧
  followed_users (load_followed_users st1) = {[user_id]} ∪ followed_users st ∧
  followed_file (load_followed_users st1) = Some ({[user_id]} ∪ followed_users st) ∧
  is_user_followed user_id (load_followed_users st1) = true ∧
  load_followed_users (load_followed_users st1) = load_followed_users st1.
Proof.
  intros st1. subst st1. unfold is_user_followed, load_followed_users, add_followed_user.
  simpl. repeat split; apply bool_decide_eq_true_2; set_solver.
Qed.

(** X15.  A follow whose file write failed is forgotten by the next
    interactor.  When the folder or the file could not be opened, the file
    is as before and after a reload the user counts as followed only if the
    file already listed them.  When the dump failed on the opened file, the
    file is left empty: after a reload nobody counts as followed, and a
    follow of any author, also one the file listed before, is clicked and
    written again. *)
Theorem failed_write_is_forgotten (user_id : string) (st : FollowState) :
  let after io := load_followed_users (add_followed_user user_id io st) in
  after OpenFails = load_followed_users st ∧
  after MkdirFails = load_followed_users st ∧
  (is_user_followed user_id (after OpenFails) = true
     ↔ user_id ∈ default ∅ (followed_file st)) ∧
  after DumpFails = {| followed_users := ∅; followed_file := Some ∅ |} ∧
  (∀ u, is_user_followed u (after DumpFails) = false) ∧
  (∀ u k,
     follow_user u k Clicked WriteOk (after DumpFails)
     = ({| followed_users := {[u]}; followed_file := Some {[u]} |}, true,
        [ClickFollow k Clicked; WriteFollowed u WriteOk])).
Proof.
  intros after. subst after.
  unfold is_user_followed, load_followed_users, add_followed_user. simpl.
  split; [done |]. split; [done |]. split; [apply bool_decide_eq_true |].
  split; [done |]. split.
  - intros u. apply bool_decide_eq_false_2. set_solver.
  - intros u k. unfold follow_user, is_user_followed, add_followed_user. simpl.
    rewrite bool_decide_eq_false_2 by set_solver. rewrite andb_false_r.
    by replace ({[u]} ∪ ∅ : gset string) with ({[u]} : gset string) by set_solver.
Qed.

(** X16.  Over any sequence of interactor constructions and [follow_user]
    calls in which no write fails after truncating the file, the
    followed-users file never loses an entry, and every author whose follow
    was written successfully is listed in the file at the end. *)
Theorem followed_file_only_grows (ops : list Op) (st : FollowState) :
  write_never_truncates ops →
  let res := run (NewInteractor :: ops) st in
  default ∅ (followed_file st) ⊆ default ∅ (followed_file res.1) ∧
  Forall (λ a, a ∈ default ∅ (followed_file res.1)) (persisted res.2).
Proof.
  intros Hops res. subst res. simpl.
  assert (Hload : file_in_memory (load_followed_users st)).
  { unfold file_in_memory, load_followed_users. by simpl. }
  destruct (run_file_grows ops (load_followed_users st) Hops Hload) as [Hg Hp].
  destruct (run ops (load_followed_users st)) as [st2 tr2]. simpl in *.
  split; [done |]. by apply Forall_forall.
Qed.

Lemma followed_file_only_grows_witness :
  let st := {| followed_users := ∅; followed_file := Some {["6801"]} |} in
  let ops := [FollowUser "77" 0 Clicked WriteOk; FollowUser "12" 1 Clicked OpenFails;
              NewInteractor; FollowUser "30" 2 Clicked MkdirFails] in
  write_never_truncates ops ∧
  default ∅ (followed_file st)
    ⊆ default ∅ (followed_file (run (NewInteractor :: ops) st).1) ∧
  Forall (λ a, a ∈ default ∅ (followed_file (run (NewInteractor :: ops) st).1))
         (persisted (run (NewInteractor :: ops) st).2).
Proof.
  intros st ops.
  assert (Hops : write_never_truncates ops) by (repeat constructor; by intros []).
  split; [exact Hops |].
  exact (followed_file_only_grows ops st Hops).
Defined.

End Follow.

(* ===================================================================== *)
(** * VideoInteractor: the engagement policy                              *)
(* ===================================================================== *)

Module Interactor.
Import Trace Normalizer.

(** [user_config]: a key that may be missing is an [option], read with the
    default the call site gives to [.get]. *)
Record UserConfig := {
  HASHTAGS_TO_LIKE : option (list string);
  HASHTAGS_TO_FOLLOW : option (list string);
  USERNAMES_TO_LIKE : option (list string);
  USERNAMES_TO_FOLLOW : option (list string);
  RANDOM_POSTS_TO_LIKE : option nat;
  RANDOM_AUTHORS_TO_FOLLOW : option nat;
  RANDOM_VIDEOS_TO_WATCH : option nat;
  RANDOM_WATCH_COEFFICIENT : option Q;
  HASHTAGS_WATCH_LONGER : option (list string);
  HASHTAGS_WATCH_LONGER_COEFFICIENT : option Q;
  WATCH_COEFFICIENT_NO_HASHTAGS : option Q;
}.

(** What the interactor keeps from its constructor arguments. *)
Record t := {
  video_details : VideoRecord;
  video_index : nat;
  user_config : UserConfig;
}.

(** [self.video_hashtags] and [self.author_username]. *)
Definition video_hashtags (self : t) : list string :=
  Py.lower <$> hashtags (video_details self).

Definition author_username (self : t) : string :=
  Py.strip (Py.lower (author_unique_id (video_details self))).

Definition should_like_video (self : t) : bool :=
  let hashtags_to_like :=
    (λ h, Py.strip (Py.lower h)) <$> default [] (HASHTAGS_TO_LIKE (user_config self)) in
  if Py.any (λ h, Py.mem h (video_hashtags self)) hashtags_to_like then true
  else
    let normalized_author := Py.strip (Py.lower (author_unique_id (video_details self))) in
    let usernames_to_like :=
      (λ u, Py.strip (Py.lower u)) <$> default [] (USERNAMES_TO_LIKE (user_config self)) in
    Py.mem normalized_author usernames_to_like.

Definition should_follow_author (self : t) : bool :=
  let hashtags_to_follow := Py.lower <$> default [] (HASHTAGS_TO_FOLLOW (user_config self)) in
  if Py.any (λ h, Py.mem h (video_hashtags self)) hashtags_to_follow then true
  else
    let usernames_to_follow :=
      Py.lower <$> default [] (USERNAMES_TO_FOLLOW (user_config self)) in
    Py.mem (author_username self) usernames_to_follow.

(** [like]: the click goes to the article at [self.video_index]. *)
Definition like (self : t) (click : ClickResult) : list Effect :=
  [ClickLike (video_index self) click].

(** [follow_user] of the interactor: the author is the one of
    [self.video_details]. *)
Definition follow_user (self : t) (click : ClickResult) (io : IoResult)
    (st : Follow.FollowState) : Follow.FollowState * list Effect :=
  let '(st', _, tr) :=
    Follow.follow_user (author_id (video_details self)) (video_index self) click io st in
  (st', tr).

(** [handle_video_actions]. *)
Definition handle_video_actions (self : t) (like_click follow_click : ClickResult)
    (io : IoResult) (st : Follow.FollowState) : Follow.FollowState * list Effect :=
  let tr1 := if should_like_video self then like self like_click else [] in
  let '(st', tr2) :=
    if should_follow_author self then follow_user self follow_click io st else (st, []) in
  (st', (tr1 ++ tr2)%list).

(** What the [currentTime] script answers. *)
Inductive EvalTime :=
| TimeValue (t : Q)
| TimeNull
| TimeRaises.

(** Whether the video carries a hashtag of [HASHTAGS_WATCH_LONGER], as
    [watch_video] tests it. *)
Definition matches_watch_longer (self : t) : bool :=
  let hashtags_watch_longer := default [] (HASHTAGS_WATCH_LONGER (user_config self)) in
  Py.any (λ hashtag, Py.mem (Py.lower hashtag) (Py.lower <$> hashtags_watch_longer))
         (hashtags (video_details self)).

(** The coefficient [watch_video] multiplies the duration with. *)
Definition watch_coefficient_used (self : t) (coefficient : Q) : Q :=
  let longer_coefficient :=
    default (6 # 5)%Q (HASHTAGS_WATCH_LONGER_COEFFICIENT (user_config self)) in
  if matches_watch_longer self then longer_coefficient else coefficient.

Definition desired_watch_time (self : t) (coefficient : Q) : Q :=
  (watch_coefficient_used self coefficient * duration (video_details self))%Q.

(** [watch_video]: the [Watch] effect records the coefficient used,
    [desired_watch_time] and [remaining_time] (the time slept when it is
    positive). *)
Definition watch_video (self : t) (coefficient : Q) (current_time : EvalTime)
  : list Effect :=
  match current_time with
  | TimeRaises => []
  | _ =>
      let current_time :=
        match current_time with TimeValue t => t | _ => 0%Q end in
      let desired := desired_watch_time self coefficient in
      let remaining_time := (desired - current_time)%Q in
      let remaining_time :=
        if Py.lt remaining_time 0 then 0%Q else remaining_time in
      [Watch (video_index self) (video_id (video_details self))
             (watch_coefficient_used self coefficient) desired remaining_time]
  end.

(** ** What the rule-based checks match *)

Lemma mem_fmap_spec (f : string → string) x xs :
  Py.mem x (f <$> xs) = true ↔ ∃ y, y ∈ xs ∧ x = f y.
Proof.
  rewrite Py.mem_spec, list_elem_of_fmap. split; intros (y & H1 & H2); by exists y.
Qed.

(** X17.  [should_like_video] holds exactly when a configured like-hashtag,
    lower-cased and stripped, equals a hashtag of the video in lower case,
    or the author handle equals a configured username, both lower-cased and
    stripped.  [should_follow_author] is the same test on the follow lists,
    except that the configured entries are lower-cased but not stripped. *)
Theorem rule_based_checks_match_ignoring_case (self : t) :
  (should_like_video self = true ↔
     (∃ h v, h ∈ default [] (HASHTAGS_TO_LIKE (user_config self)) ∧
             v ∈ hashtags (video_details self) ∧
             Py.strip (Py.lower h) = Py.lower v) ∨
     (∃ u, u ∈ default [] (USERNAMES_TO_LIKE (user_config self)) ∧
           Py.strip (Py.lower (author_unique_id (video_details self)))
             = Py.strip (Py.lower u))) ∧
  (should_follow_author self = true ↔
     (∃ h v, h ∈ default [] (HASHTAGS_TO_FOLLOW (user_config self)) ∧
             v ∈ hashtags (video_details self) ∧
             Py.lower h = Py.lower v) ∨
     (∃ u, u ∈ default [] (USERNAMES_TO_FOLLOW (user_config self)) ∧
           Py.strip (Py.lower (author_unique_id (video_details self)))
             = Py.lower u)).
Proof.
  split.
  - unfold should_like_video, video_hashtags.
    destruct (Py.any _ _) eqn:Hany.
    + split; [intros _ | done]. left.
      apply Py.any_spec in Hany as (x & Hx & Hm).
      apply list_elem_of_fmap in Hx as (h & -> & Hh).
      apply mem_fmap_spec in Hm as (v & Hv & Heq). by exists h, v.
    + rewrite mem_fmap_spec. split.
      * intros (u & Hu & Heq). right. by exists u.
      * intros [(h & v & Hh & Hv & Heq) | (u & Hu & Heq)]; [| by exists u].
        exfalso. assert (Py.any (λ h0, Py.mem h0 (Py.lower <$> hashtags (video_details self)))
                   ((λ h0, Py.strip (Py.lower h0)) <$>
                      default [] (HASHTAGS_TO_LIKE (user_config self))) = true);
          [| congruence].
        apply Py.any_spec. exists (Py.strip (Py.lower h)).
        split; [apply list_elem_of_fmap; by exists h |].
        apply mem_fmap_spec. by exists v.
  - unfold should_follow_author, video_hashtags, author_username.
    destruct (Py.any _ _) eqn:Hany.
    + split; [intros _ | done]. left.
      apply Py.any_spec in Hany as (x & Hx & Hm).
      apply list_elem_of_fmap in Hx as (h & -> & Hh).
      apply mem_fmap_spec in Hm as (v & Hv & Heq). by exists h, v.
    + rewrite mem_fmap_spec. split.
      * intros (u & Hu & Heq). right. by exists u.
      * intros [(h & v & Hh & Hv & Heq) | (u & Hu & Heq)]; [| by exists u].
        exfalso. assert (Py.any (λ h0, Py.mem h0 (Py.lower <$> hashtags (video_details self)))
                   (Py.lower <$> default [] (HASHTAGS_TO_FOLLOW (user_config self))) = true);
          [| congruence].
        apply Py.any_spec. exists (Py.lower h).
        split; [apply list_elem_of_fmap; by exists h |].
        apply mem_fmap_spec. by exists v.
Qed.

(** X18.  [handle_video_actions] clicks the like button at most once, on the
    interactor's own article and exactly when [should_like_video] holds; it
    touches the follow button and the followed-users store only when
    [should_follow_author] holds; and it records no interaction. *)
Theorem rule_based_actions_are_not_recorded (self : t)
    (like_click follow_click : ClickResult) (io : IoResult) (st : Follow.FollowState) :
  let res := handle_video_actions self like_click follow_click io st in
  omap (λ e, match e with ClickLike k _ => Some k | _ => None end) res.2
    = (if should_like_video self then [video_index self] else []) ∧
  Forall (λ e, ∀ a v, e ≠ StoreInteraction a v) res.2 ∧
  (if should_follow_author self then True
   else res.1 = st ∧ Follow.follow_clicks res.2 = [] ∧ Follow.persisted res.2 = []).
Proof.
  intros res. subst res. unfold handle_video_actions, follow_user, like.
  destruct (should_follow_author self).
  - unfold Follow.follow_user.
    destruct (Py.truthy _ && Follow.is_user_followed _ st); simpl.
    + rewrite app_nil_r. destruct (should_like_video self); simpl;
        (split; [done |]); (split; [| done]); repeat constructor; done.
    + destruct follow_click, (should_like_video self); simpl;
        (split; [done |]); (split; [| done]); repeat constructor; done.
  - rewrite app_nil_r. destruct (should_like_video self); simpl;
      (split; [done |]); (split; [repeat constructor; done |]); done.
Qed.

(** ** [watch_video] *)

(** X19.  [watch_video] waits for the intended watch time minus the time
    already played, and never for a negative time: when the video has
    already played beyond the intended time it waits 0.  It uses the
    watch-longer coefficient when a hashtag of the video equals a
    watch-longer hashtag up to case, and the coefficient it was given
    otherwise; it does nothing when the playback time cannot be read
    because the script raises. *)
Theorem watch_video_waits_the_remaining_time (self : t) (coefficient : Q)
    (current_time : EvalTime) :
  let used :=
    if matches_watch_longer self
    then default (6 # 5)%Q (HASHTAGS_WATCH_LONGER_COEFFICIENT (user_config self))
    else coefficient in
  let desired := (used * duration (video_details self))%Q in
  (matches_watch_longer self = true ↔
     ∃ h v, h ∈ default [] (HASHTAGS_WATCH_LONGER (user_config self)) ∧
            v ∈ hashtags (video_details self) ∧ Py.lower v = Py.lower h) ∧
  match current_time with
  | TimeRaises => watch_video self coefficient current_time = []
  | _ =>
      let played := match current_time with TimeValue t => t | _ => 0%Q end in
      ∃ remaining,
        watch_video self coefficient current_time
          = [Watch (video_index self) (video_id (video_details self)) used desired remaining] ∧
        (0 <= remaining)%Q ∧
        ((desired - played < 0)%Q ∧ remaining = 0%Q ∨
         (0 <= desired - played)%Q ∧ remaining = (desired - played)%Q)
  end.
Proof.
  intros used desired.
  split.
  { unfold matches_watch_longer. rewrite Py.any_spec. split.
    - intros (v & Hv & Hm). apply mem_fmap_spec in Hm as (h & Hh & Heq). by exists h, v.
    - intros (h & v & Hh & Hv & Heq). exists v. split; [done |].
      apply mem_fmap_spec. by exists h. }
  assert (Hcase : ∀ played,
    ∃ remaining,
      [Watch (video_index self) (video_id (video_details self))
             (watch_coefficient_used self coefficient)
             (desired_watch_time self coefficient)
             (if Py.lt (desired_watch_time self coefficient - played) 0 then 0%Q
              else (desired_watch_time self coefficient - played)%Q)]
        = [Watch (video_index self) (video_id (video_details self)) used desired remaining] ∧
      (0 <= remaining)%Q ∧
      ((desired - played < 0)%Q ∧ remaining = 0%Q ∨
       (0 <= desired - played)%Q ∧ remaining = (desired - played)%Q)).
  { intros played.
    change (desired_watch_time self coefficient) with desired.
    change (watch_coefficient_used self coefficient) with used.
    destruct (Py.lt (desired - played) 0) eqn:Hlt.
    - exists 0%Q. split; [done |]. split; [apply Qle_refl |].
      left. split; [by apply Py.lt_spec | done].
    - exists (desired - played)%Q. split; [done |].
      assert (Hge : (0 <= desired - played)%Q).
      { destruct (Qlt_le_dec (desired - played) 0) as [Hl | Hg]; [| done].
        apply Py.lt_spec in Hl. congruence. }
      split; [done |]. by right. }
  destruct current_time as [t | |]; [apply Hcase | apply Hcase | done].
Qed.

End Interactor.

(* ===================================================================== *)
(** * The browsing state machine: [browse_fyp]                            *)
(* ===================================================================== *)

Module Fyp.
Import Trace Normalizer Interactor.

(** The attributes of the configuration module that [browse_fyp] reads;
    [hasattr(config, k)] is [is_Some]. *)
Record Config := {
  USE_PROXY : bool;
  USE_LOGIN : bool;
  MAX_WATCHTIME : option Q;
  HASHTAGS_WATCH_LONGER_MAXWATCHTIME : option Q;
  RANDOM_WATCH_MAXWATCHTIME : option Q;
}.

Definition max_watchtime (config : Config) : Q :=
  default 120%Q (MAX_WATCHTIME config).

Definition hashtags_max_watchtime (config : Config) : Q :=
  default (max_watchtime config) (HASHTAGS_WATCH_LONGER_MAXWATCHTIME config).

Definition random_max_watchtime (config : Config) : Q :=
  default (max_watchtime config) (RANDOM_WATCH_MAXWATCHTIME config).

(** The ceiling [clamp_watch_coefficient] selects. *)
Definition current_max (config : Config) (has_watch_longer_tags is_random_watch : bool) : Q :=
  if is_random_watch then random_max_watchtime config
  else if has_watch_longer_tags then hashtags_max_watchtime config
  else max_watchtime config.

(** [clamp_watch_coefficient]; [details] is the variable of the enclosing
    scope it reads the duration from. *)
Definition clamp_watch_coefficient (config : Config) (details : VideoRecord)
    (cf : Q) (has_watch_longer_tags is_random_watch : bool) : Q :=
  let dur := duration details in
  if Py.le dur 0 then cf
  else
    let watch_secs := (cf * dur)%Q in
    let current_max := current_max config has_watch_longer_tags is_random_watch in
    if Py.gt watch_secs current_max then (current_max / dur)%Q else cf.

(** ** The environment *)

Inductive FindResult := ButtonFound | ButtonNotFound | FindRaises.

Inductive SelectResult := Article | NoArticle | SelectRaises.

(** The re-selection inside [find_next_non_skippable_for_like] waits for
    [run_coroutine_threadsafe(...).result()] on the thread of the running
    loop.  [Blocks]: the call never returns; the other two answers are the
    ones the code goes on to handle. *)
Inductive BlockingSelect := Blocks | Selected (found : bool).

(** What the browser, the queue and the file system answer.  Answers about
    an article are indexed by its [data-scroll-index]. *)
Record World := {
  find_for_you : FindResult;                 (* tab.find("For You", timeout=120) *)
  batches : list (list VideoRecord);         (* video_details_list of the queued batches;
                                                after the last one the pop times out *)
  shuffle : nat → list nat;                  (* order in which the n-th random.sample draws *)
  select : nat → SelectResult;               (* tab.select(article[data-scroll-index=k]) *)
  blocking_select : nat → BlockingSelect;
  detect_dom_livestream : nat → bool;
  store_request_raises : nat → bool;         (* writing the request JSON of batch n *)
  like_click : nat → ClickResult;
  follow_click : nat → ClickResult;
  followed_io : nat → IoResult;
  current_time : nat → EvalTime;
}.

(** The local variables of [browse_fyp] that change in the loops, with the
    followed-users store and the effects so far. *)
Record Vars := {
  i : nat;
  global_video_index : nat;
  batch_count : nat;
  total_videos_processed : nat;
  store : Follow.FollowState;
  trace : list Effect;
}.

Definition emit (es : list Effect) (v : Vars) : Vars :=
  {| i := i v; global_video_index := global_video_index v;
     batch_count := batch_count v;
     total_videos_processed := total_videos_processed v;
     store := store v; trace := (trace v ++ es)%list |}.

(** [global_video_index += 1; i += 1]. *)
Definition next_item (v : Vars) : Vars :=
  {| i := S (i v); global_video_index := S (global_video_index v);
     batch_count := batch_count v;
     total_videos_processed := total_videos_processed v;
     store := store v; trace := trace v |}.

Definition with_store (st : Follow.FollowState) (v : Vars) : Vars :=
  {| i := i v; global_video_index := global_video_index v;
     batch_count := batch_count v;
     total_videos_processed := total_videos_processed v;
     store := st; trace := trace v |}.

Inductive SkipExit :=
| SkipBreak (details : VideoRecord) (dom_article : bool) (v : Vars)
| SkipRaised (v : Vars)
| SkipNoFuel.

Inductive LikeExit :=
| LikeDecided (can_like : bool) (details : VideoRecord) (dom_article : bool) (v : Vars)
| LikeBlocked (v : Vars)
| LikeNoFuel.

Inductive Exit :=
| Completed     (* the loop condition failed, or a break *)
| Returned      (* return testrunid inside the loop *)
| Raised        (* an exception reached the outer handler *)
| Blocked       (* a call that never returns *)
| NoFuel.

Inductive RunResult :=
| Returns (testrunid : option string)
| NeverReturns
| FuelExhausted.

Section Browse.
Variable config : Config.
(** [user_config]; [None] stands for a falsy value. *)
Variable user_config : option UserConfig.
Variable max_batches max_videos : nat.
Variable testrunid : string.
Variable w : World.

(** [random.sample(range(max_videos), k)] at its [n]-th call. *)
Definition random_sample (n k : nat) : list nat := take k (shuffle w n).

Definition logged_in : option UserConfig :=
  if USE_LOGIN config then user_config else None.

Definition indices_to_random_like : list nat :=
  match logged_in with
  | Some uc => random_sample 0 (min (default 0%nat (RANDOM_POSTS_TO_LIKE uc)) max_videos)
  | None => []
  end.

Definition indices_to_random_follow : list nat :=
  match logged_in with
  | Some uc => random_sample 1 (min (default 0%nat (RANDOM_AUTHORS_TO_FOLLOW uc)) max_videos)
  | None => []
  end.

Definition indices_to_random_watch : list nat :=
  match logged_in with
  | Some uc => random_sample 2 (min (default 0%nat (RANDOM_VIDEOS_TO_WATCH uc)) max_videos)
  | None => []
  end.

(** The skip loop ([while True] under "Skip logic").  Both of its branches
    run the same block, [skipped] below. *)
Fixpoint skip_loop (fuel : nat) (video_batch : list VideoRecord)
    (details : VideoRecord) (dom_article : bool) (v : Vars) : SkipExit :=
  match fuel with
  | 0 => SkipNoFuel
  | S fuel' =>
      let skipped :=
        let v1 := next_item (emit [SkipScreenshot (global_video_index v)] v) in
        if (length video_batch <=? i v1)%nat then SkipBreak details dom_article v1
        else
          match video_batch !! i v1 with
          | None => SkipRaised v1
          | Some details' =>
              match select w (global_video_index v1) with
              | SelectRaises => SkipRaised v1
              | NoArticle => SkipBreak details' false v1
              | Article =>
                  skip_loop fuel' video_batch details' true
                            (emit [Screenshot (global_video_index v1)] v1)
              end
          end in
      if skip_this details then skipped
      else if detect_dom_livestream w (global_video_index v) then skipped
      else SkipBreak details dom_article v
  end.

(** [find_next_non_skippable_for_like]. *)
Fixpoint find_next_non_skippable_for_like (fuel : nat) (video_batch : list VideoRecord)
    (details : VideoRecord) (dom_article : bool) (v : Vars) : LikeExit :=
  match fuel with
  | 0 => LikeNoFuel
  | S fuel' =>
      if (length video_batch <=? i v)%nat then LikeDecided false details dom_article v
      else if skip_this details || isAd details then
        let v1 := next_item v in
        if (i v1 <? length video_batch)%nat then
          match video_batch !! i v1 with
          | None => LikeDecided false details dom_article v1
          | Some details' =>
              match blocking_select w (global_video_index v1) with
              | Blocks => LikeBlocked v1
              | Selected false => LikeDecided false details' dom_article v1
              | Selected true =>
                  find_next_non_skippable_for_like fuel' video_batch details' true v1
              end
          end
        else LikeDecided false details dom_article v1
      else LikeDecided true details dom_article v
  end.

(** [store_interaction]. *)
Definition store_interaction (action_type video_id : string) : list Effect :=
  [StoreInteraction action_type video_id].

(** The body of [if config.USE_LOGIN and user_config:] for the current
    item. *)
Definition engage (uc : UserConfig) (video_batch : list VideoRecord)
    (details : VideoRecord) (dom_article : bool) (v : Vars) : Exit * Vars :=
  let k := global_video_index v in
  let v_interactor :=
    {| video_details := details; video_index := k; Interactor.user_config := uc |} in
  let '(st, tr) :=
    handle_video_actions v_interactor (like_click w k) (follow_click w k) (followed_io w k)
                         (Follow.load_followed_users (store v)) in
  let v := emit tr (with_store st v) in
  let do_random_like := bool_decide (k ∈ indices_to_random_like) in
  let do_random_follow := bool_decide (k ∈ indices_to_random_follow) in
  let do_random_watch := bool_decide (k ∈ indices_to_random_watch) in
  let hashtags_lower := Py.lower <$> hashtags details in
  let watch_longer_tags := default [] (HASHTAGS_WATCH_LONGER uc) in
  let has_watch_longer_tags := Py.any (λ tag, Py.mem tag hashtags_lower) watch_longer_tags in
  let watch_coeff :=
    if has_watch_longer_tags then default 1%Q (HASHTAGS_WATCH_LONGER_COEFFICIENT uc)
    else default 1%Q (WATCH_COEFFICIENT_NO_HASHTAGS uc) in
  let watch_coeff :=
    clamp_watch_coefficient config details watch_coeff has_watch_longer_tags do_random_watch in
  let liked :=
    if do_random_like then
      find_next_non_skippable_for_like (S (length video_batch - i v)) video_batch
                                       details dom_article v
    else LikeDecided false details dom_article v in
  match liked with
  | LikeNoFuel => (NoFuel, v)
  | LikeBlocked v => (Blocked, v)
  | LikeDecided can_like details dom_article v =>
      let v :=
        if do_random_like && can_like then
          emit (like v_interactor (like_click w k) ++
                store_interaction "like" (video_id details))%list v
        else v in
      let v :=
        if do_random_follow then
          let '(st, tr) :=
            Interactor.follow_user v_interactor (follow_click w k) (followed_io w k) (store v) in
          emit (tr ++ store_interaction "follow" (video_id details))%list (with_store st v)
        else v in
      let v :=
        if do_random_watch then
          let part_cf := default 1%Q (RANDOM_WATCH_COEFFICIENT uc) in
          let part_cf :=
            clamp_watch_coefficient config details part_cf has_watch_longer_tags true in
          emit (watch_video v_interactor part_cf (current_time w k) ++
                store_interaction "random_watch" (video_id details))%list v
        else
          let watch_coeff :=
            clamp_watch_coefficient config details watch_coeff has_watch_longer_tags false in
          emit (watch_video v_interactor watch_coeff (current_time w k) ++
                (if has_watch_longer_tags && Py.gt watch_coeff 1
                 then store_interaction "watch_longer" (video_id details) else []))%list v in
      (Completed, v)
  end.

(** [while i < len(video_batch)]. *)
Fixpoint inner_loop (fuel : nat) (video_batch : list VideoRecord) (v : Vars) : Exit * Vars :=
  if (length video_batch <=? i v)%nat then (Completed, v)
  else
    match fuel with
    | 0 => (NoFuel, v)
    | S fuel' =>
        if (max_videos <=? total_videos_processed v)%nat then (Returned, v)
        else
          match video_batch !! i v with
          | None => (Raised, v)
          | Some details =>
              match select w (global_video_index v) with
              | SelectRaises => (Raised, v)
              | NoArticle => (Completed, v)
              | Article =>
                  let v := emit [Screenshot (global_video_index v)] v in
                  match skip_loop (length video_batch - i v) video_batch details true v with
                  | SkipNoFuel => (NoFuel, v)
                  | SkipRaised v => (Raised, v)
                  | SkipBreak details dom_article v =>
                      if (length video_batch <=? i v)%nat then (Completed, v)
                      else
                        let engaged :=
                          match logged_in with
                          | Some uc => engage uc video_batch details dom_article v
                          | None => (Completed, v)
                          end in
                        match engaged with
                        | (Completed, v) =>
                            inner_loop fuel' video_batch
                              {| i := S (i v);
                                 global_video_index := S (global_video_index v);
                                 batch_count := batch_count v;
                                 total_videos_processed := S (total_videos_processed v);
                                 store := store v; trace := trace v |}
                        | other => other
                        end
                  end
              end
          end
    end.

(** The main loop: one queue pop per iteration. *)
Fixpoint main_loop (queue : list (list VideoRecord)) (v : Vars) : Exit * Vars :=
  if (batch_count v <? max_batches)%nat && (total_videos_processed v <? max_videos)%nat then
    match queue with
    | [] => (Completed, v)
    | video_batch :: queue' =>
        match video_batch with
        | [] => main_loop queue' v
        | _ =>
            let v :=
              {| i := i v; global_video_index := global_video_index v;
                 batch_count := S (batch_count v);
                 total_videos_processed := total_videos_processed v;
                 store := store v; trace := trace v |} in
            if store_request_raises w (batch_count v) then (Raised, v)
            else
              let v := emit [StoreBatch (batch_count v)] v in
              let v :=
                {| i := 0; global_video_index := global_video_index v;
                   batch_count := batch_count v;
                   total_videos_processed := total_videos_processed v;
                   store := store v; trace := trace v |} in
              match inner_loop (length video_batch) video_batch v with
              | (Completed, v) => main_loop queue' v
              | other => other
              end
        end
    end
  else (Completed, v).

Definition initial_vars (st : Follow.FollowState) : Vars :=
  {| i := 0; global_video_index := 0; batch_count := 0;
     total_videos_processed := 0; store := st; trace := [] |}.

(** How the [try] block of [browse_fyp] ends. *)
Inductive TryExit :=
| ReturnedNone           (* return None: the button was not found *)
| ReturnedRunId          (* return testrunid inside the loop *)
| FellThrough            (* the block ran to its end *)
| Excepted               (* except Exception: logged *)
| TryBlocked
| TryNoFuel.

Definition try_block (st : Follow.FollowState) : TryExit * Vars :=
  match find_for_you w with
  | FindRaises => (Excepted, initial_vars st)
  | ButtonNotFound => (ReturnedNone, initial_vars st)
  | ButtonFound =>
      match main_loop (batches w) (initial_vars st) with
      | (Completed, v) => (FellThrough, v)
      | (Returned, v) => (ReturnedRunId, v)
      | (Raised, v) => (Excepted, v)
      | (Blocked, v) => (TryBlocked, v)
      | (NoFuel, v) => (TryNoFuel, v)
      end
  end.

(** [browse_fyp]: its result and the effects of the run. *)
Definition browse_fyp (st : Follow.FollowState) : RunResult * list Effect :=
  match try_block st with
  | (ReturnedNone, v) => (Returns None, trace v)
  | (ReturnedRunId, v) => (Returns (Some testrunid), trace v)
  | (FellThrough, v) => (Returns (Some testrunid), trace v)
  | (Excepted, v) => (Returns (Some testrunid), trace v)
  | (TryBlocked, v) => (NeverReturns, trace v)
  | (TryNoFuel, v) => (FuelExhausted, trace v)
  end.

(** ** What reaches the engagement step *)

(** When the skip loop ends on an article that is present, the current item
    is not skip-classified and its article is not a livestream. *)
Lemma skip_loop_break_not_skipped fuel video_batch details v d' v' :
  skip_loop fuel video_batch details true v = SkipBreak d' true v' →
  (i v' < length video_batch)%nat →
  skip_this d' = false ∧ detect_dom_livestream w (global_video_index v') = false.
Proof.
  revert details v. induction fuel as [| fuel IH]; intros details v; simpl; [done |].
  assert (Hskipped :
    (let v1 := next_item (emit [SkipScreenshot (global_video_index v)] v) in
     if (length video_batch <=? i v1)%nat then SkipBreak details true v1
     else
       match video_batch !! i v1 with
       | None => SkipRaised v1
       | Some details' =>
           match select w (global_video_index v1) with
           | SelectRaises => SkipRaised v1
           | NoArticle => SkipBreak details' false v1
           | Article =>
               skip_loop fuel video_batch details' true
                         (emit [Screenshot (global_video_index v1)] v1)
           end
       end) = SkipBreak d' true v' →
    (i v' < length video_batch)%nat →
    skip_this d' = false ∧ detect_dom_livestream w (global_video_index v') = false).
  { simpl. destruct (length video_batch <=? S (i v))%nat eqn:Hlen.
    { apply Nat.leb_le in Hlen. intros [= <- <-]. simpl. lia. }
    destruct (video_batch !! S (i v)) as [details' |]; [| done].
    destruct (select w (S (global_video_index v))); try done. apply IH. }
  destruct (skip_this details) eqn:Hs; [exact Hskipped |].
  destruct (detect_dom_livestream w (global_video_index v)) eqn:Hl; [exact Hskipped |].
  by intros [= <- <-].
Qed.

(** On an item that is neither skip- nor ad-classified the search for an
    item to like stops at once, on that item. *)
Lemma find_next_on_valid_item fuel video_batch details dom_article v :
  (i v < length video_batch)%nat → skip_this details = false → isAd details = false →
  find_next_non_skippable_for_like (S fuel) video_batch details dom_article v
  = LikeDecided true details dom_article v.
Proof.
  intros Hi Hs Ha. simpl.
  destruct (length video_batch <=? i v)%nat eqn:Hlen.
  { apply Nat.leb_le in Hlen. lia. }
  by rewrite Hs, Ha.
Qed.

(** ** The loops never run out of fuel *)

Lemma skip_loop_total fuel video_batch details dom_article v :
  (i v < length video_batch)%nat → (length video_batch - i v ≤ fuel)%nat →
  skip_loop fuel video_batch details dom_article v ≠ SkipNoFuel ∧
  ∀ d' a' v', skip_loop fuel video_batch details dom_article v = SkipBreak d' a' v' →
              (i v ≤ i v')%nat.
Proof.
  revert details dom_article v.
  induction fuel as [| fuel IH]; intros details dom_article v Hi Hf; [lia |].
  assert (Hskipped :
    ∀ x, x =
      (let v1 := next_item (emit [SkipScreenshot (global_video_index v)] v) in
       if (length video_batch <=? i v1)%nat then SkipBreak details dom_article v1
       else
         match video_batch !! i v1 with
         | None => SkipRaised v1
         | Some details' =>
             match select w (global_video_index v1) with
             | SelectRaises => SkipRaised v1
             | NoArticle => SkipBreak details' false v1
             | Article =>
                 skip_loop fuel video_batch details' true
                           (emit [Screenshot (global_video_index v1)] v1)
             end
         end) →
      x ≠ SkipNoFuel ∧ ∀ d' a' v', x = SkipBreak d' a' v' → (i v ≤ i v')%nat).
  { intros x ->. simpl.
    destruct (length video_batch <=? S (i v))%nat eqn:Hlen.
    { split; [done |]. intros ??? [= <- <- <-]. simpl. lia. }
    apply Nat.leb_gt in Hlen.
    destruct (video_batch !! S (i v)) as [details' |]; [| done].
    destruct (select w (S (global_video_index v))); try done.
    - match goal with |- context [skip_loop fuel video_batch details' true ?u] =>
        destruct (IH details' true u) as [Hne Hmono] end; try (simpl; lia).
      split; [done |]. intros d' a' v' Heq. apply Hmono in Heq. simpl in Heq. lia.
    - split; [done |]. intros ??? [= <- <- <-]. simpl. lia. }
  simpl. destruct (skip_this details); [by apply Hskipped |].
  destruct (detect_dom_livestream w (global_video_index v)); [by apply Hskipped |].
  split; [done |]. by intros ??? [= <- <- <-].
Qed.

Lemma find_next_total fuel video_batch details dom_article v :
  (S (length video_batch - i v) ≤ fuel)%nat →
  find_next_non_skippable_for_like fuel video_batch details dom_article v ≠ LikeNoFuel ∧
  ∀ c d' a' v',
    find_next_non_skippable_for_like fuel video_batch details dom_article v
      = LikeDecided c d' a' v' → (i v ≤ i v')%nat.
Proof.
  revert details dom_article v.
  induction fuel as [| fuel IH]; intros details dom_article v Hf; [lia |].
  simpl. destruct (length video_batch <=? i v)%nat eqn:Hlen.
  { split; [done |]. by intros ???? [= <- <- <- <-]. }
  apply Nat.leb_gt in Hlen.
  destruct (skip_this details || isAd details).
  2: { split; [done |]. by intros ???? [= <- <- <- <-]. }
  destruct (S (i v) <? length video_batch)%nat.
  2: { split; [done |]. intros ???? [= <- <- <- <-]. simpl. lia. }
  destruct (video_batch !! S (i v)) as [details' |].
  2: { split; [done |]. intros ???? [= <- <- <- <-]. simpl. lia. }
  destruct (blocking_select w (S (global_video_index v))) as [| []]; try done.
  - destruct (IH details' true (next_item v)) as [Hne Hmono]; [simpl; lia |].
    split; [done |]. intros c d' a' v' Heq. apply Hmono in Heq. simpl in Heq. lia.
  - split; [done |]. intros ???? [= <- <- <- <-]. simpl. lia.
Qed.

Lemma engage_total uc video_batch details dom_article v :
  (engage uc video_batch details dom_article v).1 ≠ NoFuel ∧
  ∀ v', engage uc video_batch details dom_article v = (Completed, v') → (i v ≤ i v')%nat.
Proof.
  unfold engage.
  destruct (handle_video_actions _ _ _ _ _) as [st tr].
  set (v0 := emit tr (with_store st v)).
  assert (Hi0 : i v0 = i v) by done.
  destruct (bool_decide (global_video_index v ∈ indices_to_random_like)).
  - destruct (find_next_total (S (length video_batch - i v0)) video_batch details
                dom_article v0) as [Hne Hmono]; [lia |].
    destruct (find_next_non_skippable_for_like _ _ _ _ _) as [c d' a' v1 | v1 |];
      [| done | done].
    specialize (Hmono c d' a' v1 eq_refl).
    split; [done |]. intros v' [= <-].
    repeat (match goal with
            | |- context [if ?b then _ else _] => destruct b
            | |- context [let '(_, _) := ?p in _] => destruct p
            end; simpl); lia.
  - split; [done |]. intros v' [= <-].
    repeat (match goal with
            | |- context [if ?b then _ else _] => destruct b
            | |- context [let '(_, _) := ?p in _] => destruct p
            end; simpl); lia.
Qed.

Lemma inner_loop_total fuel video_batch v :
  (length video_batch ≤ fuel + i v)%nat →
  (inner_loop fuel video_batch v).1 ≠ NoFuel.
Proof.
  revert v. induction fuel as [| fuel IH]; intros v Hf; simpl.
  { destruct (length video_batch <=? i v)%nat eqn:Hlen; [done |].
    apply Nat.leb_gt in Hlen. lia. }
  destruct (length video_batch <=? i v)%nat eqn:Hlen; [done |].
  apply Nat.leb_gt in Hlen.
  destruct (max_videos <=? total_videos_processed v)%nat; [done |].
  destruct (video_batch !! i v) as [details |]; [| done].
  destruct (select w (global_video_index v)); try done.
  set (v0 := emit [Screenshot (global_video_index v)] v).
  destruct (skip_loop_total (length video_batch - i v0) video_batch details true v0)
    as [Hne Hmono]; [done | done |].
  destruct (skip_loop _ _ _ _ _) as [d' a' v1 | v1 |]; [| done | done].
  specialize (Hmono d' a' v1 eq_refl). simpl in Hmono.
  destruct (length video_batch <=? i v1)%nat; [done |].
  destruct logged_in as [uc |].
  - destruct (engage_total uc video_batch d' a' v1) as [Hne' Hmono'].
    destruct (engage uc video_batch d' a' v1) as [[] v2]; try done.
    specialize (Hmono' v2 eq_refl). apply IH. simpl. lia.
  - apply IH. simpl. lia.
Qed.

Lemma main_loop_total queue v : (main_loop queue v).1 ≠ NoFuel.
Proof.
  revert v. induction queue as [| video_batch queue IH]; intros v; simpl.
  { by destruct (_ && _). }
  destruct (_ && _); [| done].
  destruct video_batch as [| d rest]; [apply IH |].
  destruct (store_request_raises w (S (batch_count v))); [done |].
  match goal with |- context [inner_loop ?f ?b ?u] =>
    pose proof (inner_loop_total f b u) as Hin;
    destruct (inner_loop f b u) as [[] v1] end; try done; try apply IH.
  exfalso. apply Hin; [simpl; lia | done].
Qed.

(** [browse_fyp] either returns or is blocked in the re-selection of
    [find_next_non_skippable_for_like]. *)
Lemma browse_fyp_total st : (browse_fyp st).1 ≠ FuelExhausted.
Proof.
  unfold browse_fyp, try_block.
  destruct (find_for_you w); try done.
  pose proof (main_loop_total (batches w) (initial_vars st)) as H.
  by destruct (main_loop (batches w) (initial_vars st)) as [[] v].
Qed.

(** ** What the inner steps leave unchanged *)

Lemma skip_loop_counters fuel video_batch details dom_article v :
  match skip_loop fuel video_batch details dom_article v with
  | SkipBreak _ _ v' | SkipRaised v' =>
      batch_count v' = batch_count v ∧
      total_videos_processed v' = total_videos_processed v ∧
      store v' = store v
  | SkipNoFuel => True
  end.
Proof.
  revert details dom_article v.
  induction fuel as [| fuel IH]; intros details dom_article v; simpl; [done |].
  assert (Hskipped :
    match
      (let v1 := next_item (emit [SkipScreenshot (global_video_index v)] v) in
       if (length video_batch <=? i v1)%nat then SkipBreak details dom_article v1
       else
         match video_batch !! i v1 with
         | None => SkipRaised v1
         | Some details' =>
             match select w (global_video_index v1) with
             | SelectRaises => SkipRaised v1
             | NoArticle => SkipBreak details' false v1
             | Article =>
                 skip_loop fuel video_batch details' true
                           (emit [Screenshot (global_video_index v1)] v1)
             end
         end)
    with
    | SkipBreak _ _ v' | SkipRaised v' =>
        batch_count v' = batch_count v ∧
        total_videos_processed v' = total_videos_processed v ∧
        store v' = store v
    | SkipNoFuel => True
    end).
  { cbv zeta.
    destruct (length video_batch <=? _)%nat; [done |].
    destruct (video_batch !! _) as [details' |]; [| done].
    destruct (select w _); try done.
    match goal with |- context [skip_loop fuel video_batch details' true ?u] =>
      specialize (IH details' true u);
      destruct (skip_loop fuel video_batch details' true u) end; done. }
  destruct (skip_this details); [exact Hskipped |].
  destruct (detect_dom_livestream w (global_video_index v)); [exact Hskipped | done].
Qed.

Lemma find_next_counters fuel video_batch details dom_article v :
  match find_next_non_skippable_for_like fuel video_batch details dom_article v with
  | LikeDecided _ _ _ v' | LikeBlocked v' =>
      batch_count v' = batch_count v ∧
      total_videos_processed v' = total_videos_processed v ∧
      store v' = store v ∧ trace v' = trace v
  | LikeNoFuel => True
  end.
Proof.
  revert details dom_article v.
  induction fuel as [| fuel IH]; intros details dom_article v; simpl; [done |].
  destruct (length video_batch <=? i v)%nat; [done |].
  destruct (skip_this details || isAd details); [| done].
  destruct (S (i v) <? length video_batch)%nat; [| done].
  destruct (video_batch !! S (i v)) as [details' |]; [| done].
  destruct (blocking_select w (S (global_video_index v))) as [| []]; try done.
  specialize (IH details' true (next_item v)).
  by destruct (find_next_non_skippable_for_like fuel video_batch details' true (next_item v)).
Qed.

Lemma engage_counters uc video_batch details dom_article v :
  batch_count (engage uc video_batch details dom_article v).2 = batch_count v ∧
  total_videos_processed (engage uc video_batch details dom_article v).2
    = total_videos_processed v.
Proof.
  unfold engage.
  destruct (handle_video_actions _ _ _ _ _) as [st tr].
  set (v0 := emit tr (with_store st v)).
  destruct (bool_decide (global_video_index v ∈ indices_to_random_like)).
  - pose proof (find_next_counters (S (length video_batch - i v0)) video_batch details
                  dom_article v0) as Hf.
    destruct (find_next_non_skippable_for_like _ _ _ _ _) as [c d' a' v1 | v1 |];
      [| by destruct Hf as (? & ? & _) | done].
    destruct Hf as (Hb & Ht & _).
    repeat (match goal with
            | |- context [if ?b then _ else _] => destruct b
            | |- context [let '(_, _) := ?p in _] => destruct p
            end; simpl); done.
  - repeat (match goal with
            | |- context [if ?b then _ else _] => destruct b
            | |- context [let '(_, _) := ?p in _] => destruct p
            end; simpl); done.
Qed.

(** ** The effects of the engagement step *)

Definition stored_batches (tr : list Effect) : list nat :=
  omap (λ e, match e with StoreBatch n => Some n | _ => None end) tr.

Definition watched (tr : list Effect) : list nat :=
  omap (λ e, match e with Watch k _ _ _ _ => Some k | _ => None end) tr.

Definition liked_interactions (tr : list Effect) : list string :=
  omap (λ e, match e with
             | StoreInteraction a vid => if String.eqb a "like" then Some vid else None
             | _ => None
             end) tr.

Definition is_click_effect (e : Effect) : Prop :=
  match e with
  | ClickLike _ _ | ClickFollow _ _ | WriteFollowed _ _ => True
  | _ => False
  end.

Lemma click_effects_summary tr :
  Forall is_click_effect tr →
  stored_batches tr = [] ∧ watched tr = [] ∧ liked_interactions tr = [].
Proof.
  induction 1 as [| e tr He _ IH]; [done |].
  destruct IH as (H1 & H2 & H3).
  unfold stored_batches, watched, liked_interactions in *. csimpl.
  rewrite H1, H2, H3. by destruct e.
Qed.

Lemma follow_user_effects self click io st :
  Forall is_click_effect (Interactor.follow_user self click io st).2.
Proof.
  unfold Interactor.follow_user, Follow.follow_user.
  destruct (_ && _); [by constructor |].
  destruct click; simpl; by repeat constructor.
Qed.

Lemma handle_video_actions_effects self like_click follow_click io st :
  Forall is_click_effect (handle_video_actions self like_click follow_click io st).2.
Proof.
  unfold handle_video_actions.
  pose proof (follow_user_effects self follow_click io st) as Hf.
  destruct (Interactor.follow_user self follow_click io st) as [st' tr2].
  destruct (should_follow_author self), (should_like_video self); simpl in *;
    rewrite ?app_nil_r; try done; by repeat constructor.
Qed.

Lemma watch_video_effects self c t :
  stored_batches (watch_video self c t) = [] ∧
  liked_interactions (watch_video self c t) = [] ∧
  (length (watched (watch_video self c t)) ≤ 1)%nat.
Proof. destruct t; simpl; auto. Qed.

Ltac engage_tail :=
  repeat match goal with
  | |- context [Interactor.follow_user ?a ?b ?c ?d] =>
      let H := fresh "Hfu" in
      pose proof (follow_user_effects a b c d) as H;
      destruct (Interactor.follow_user a b c d); simpl in H;
      apply click_effects_summary in H as (? & ? & ?)
  | |- context [watch_video ?a ?b ?c] =>
      let H := fresh "Hwv" in
      pose proof (watch_video_effects a b c) as H; destruct H as (? & ? & ?);
      generalize dependent (watch_video a b c); intros
  | |- context [if ?b then _ else _] => destruct b
  end; simpl.

Ltac engage_finish Htrace :=
  unfold stored_batches, watched, liked_interactions, store_interaction in *;
  rewrite Htrace, <- ?app_assoc;
  eexists; split; [reflexivity |];
  rewrite ?omap_app; csimpl;
  repeat match goal with H : omap _ _ = [] |- _ => rewrite H end;
  rewrite ?app_nil_r; simpl;
  split; [done |]; split; [done |]; split; [done |];
  let Hn := fresh in intros Hn; first [done | by destruct Hn].

Lemma engage_trace uc video_batch details dom_article v :
  ∃ ext,
    trace (engage uc video_batch details dom_article v).2 = (trace v ++ ext)%list ∧
    stored_batches ext = [] ∧
    (length (watched ext) ≤ 1)%nat ∧
    ((engage uc video_batch details dom_article v).1 ≠ Completed → watched ext = []) ∧
    (global_video_index v ∉ indices_to_random_like →
     (engage uc video_batch details dom_article v).1 = Completed ∧
     liked_interactions ext = []).
Proof.
  unfold engage.
  pose proof (handle_video_actions_effects
    {| video_details := details; video_index := global_video_index v;
       Interactor.user_config := uc |}
    (like_click w (global_video_index v)) (follow_click w (global_video_index v))
    (followed_io w (global_video_index v)) (Follow.load_followed_users (store v))) as Hh.
  destruct (handle_video_actions _ _ _ _ _) as [st tr]. simpl in Hh.
  apply click_effects_summary in Hh as (Hb & Hw & Hl).
  unfold stored_batches, watched, liked_interactions in *.
  set (v0 := emit tr (with_store st v)).
  assert (Hv0 : trace v0 = (trace v ++ tr)%list) by done.
  clearbody v0.
  destruct (decide (global_video_index v ∈ indices_to_random_like)) as [Hin | Hnin].
  - rewrite (bool_decide_eq_true_2 _ Hin).
    pose proof (find_next_counters (S (length video_batch - i v0)) video_batch details
                  dom_article v0) as Hf.
    destruct (find_next_non_skippable_for_like _ _ _ _ _) as [c d' a' v1 | v1 |].
    + destruct Hf as (_ & _ & _ & Hf). rewrite <- Hf in Hv0. clear Hf. 
      assert (Hc : c = true → global_video_index v ∈ indices_to_random_like) by done.
      simpl. engage_tail; engage_finish Hv0.
    + destruct Hf as (_ & _ & _ & Hf). rewrite <- Hf in Hv0.
      simpl. exists tr. rewrite Hb, Hw.
      split; [done |]. split; [done |]. split; [simpl; lia |]. split; [done |]. by intros ?.
    + simpl. exists tr. rewrite Hb, Hw.
      split; [done |]. split; [done |]. split; [simpl; lia |]. split; [done |]. by intros ?.
  - rewrite (bool_decide_eq_false_2 _ Hnin).
    simpl. engage_tail; engage_finish Hv0.
Qed.

(** ** Invariants of the loops *)

(** The effects the loops emit outside the engagement step. *)
Definition is_screenshot (e : Effect) : Prop :=
  match e with
  | Screenshot _ | SkipScreenshot _ => True
  | _ => False
  end.

Definition is_capture_effect (e : Effect) : Prop :=
  match e with
  | Screenshot _ | SkipScreenshot _ | StoreBatch _ => True
  | _ => False
  end.

Section Invariant.
Variable I : Vars → Prop.
Hypothesis I_emit : ∀ e v, is_screenshot e → I v → I (emit [e] v).
Hypothesis I_next : ∀ v, I v → I (next_item v).
Hypothesis I_step : ∀ video_batch details dom_article v,
  (total_videos_processed v < max_videos)%nat → I v →
  match
    match logged_in with
    | Some uc => engage uc video_batch details dom_article v
    | None => (Completed, v)
    end
  with
  | (Completed, v') =>
      I {| i := S (i v'); global_video_index := S (global_video_index v');
           batch_count := batch_count v';
           total_videos_processed := S (total_videos_processed v');
           store := store v'; trace := trace v' |}
  | (_, v') => I v'
  end.
Hypothesis I_batch : ∀ v,
  (batch_count v < max_batches)%nat → I v →
  I {| i := i v; global_video_index := global_video_index v;
       batch_count := S (batch_count v);
       total_videos_processed := total_videos_processed v;
       store := store v; trace := trace v |} ∧
  I {| i := 0; global_video_index := global_video_index v;
       batch_count := S (batch_count v);
       total_videos_processed := total_videos_processed v;
       store := store v;
       trace := (trace v ++ [StoreBatch (S (batch_count v))])%list |}.

Lemma skip_loop_inv fuel video_batch details dom_article v :
  I v →
  match skip_loop fuel video_batch details dom_article v with
  | SkipBreak _ _ v' | SkipRaised v' => I v'
  | SkipNoFuel => True
  end.
Proof.
  revert details dom_article v.
  induction fuel as [| fuel IH]; intros details dom_article v Hv; simpl; [done |].
  assert (Hskipped :
    match
      (let v1 := next_item (emit [SkipScreenshot (global_video_index v)] v) in
       if (length video_batch <=? i v1)%nat then SkipBreak details dom_article v1
       else
         match video_batch !! i v1 with
         | None => SkipRaised v1
         | Some details' =>
             match select w (global_video_index v1) with
             | SelectRaises => SkipRaised v1
             | NoArticle => SkipBreak details' false v1
             | Article =>
                 skip_loop fuel video_batch details' true
                           (emit [Screenshot (global_video_index v1)] v1)
             end
         end)
    with
    | SkipBreak _ _ v' | SkipRaised v' => I v'
    | SkipNoFuel => True
    end).
  { assert (H1 : I (next_item (emit [SkipScreenshot (global_video_index v)] v))).
    { by apply I_next, I_emit. }
    cbv zeta.
    destruct (length video_batch <=? _)%nat; [done |].
    destruct (video_batch !! _) as [details' |]; [| done].
    destruct (select w _); try done.
    by apply IH, I_emit. }
  destruct (skip_this details); [exact Hskipped |].
  destruct (detect_dom_livestream w (global_video_index v)); [exact Hskipped | done].
Qed.

Lemma inner_loop_inv fuel video_batch v : I v → I (inner_loop fuel video_batch v).2.
Proof.
  revert v. induction fuel as [| fuel IH]; intros v Hv; simpl.
  { by destruct (length video_batch <=? i v)%nat. }
  destruct (length video_batch <=? i v)%nat; [done |].
  destruct (max_videos <=? total_videos_processed v)%nat eqn:Hmax; [done |].
  apply Nat.leb_gt in Hmax.
  destruct (video_batch !! i v) as [details |]; [| done].
  destruct (select w (global_video_index v)); try done.
  set (v0 := emit [Screenshot (global_video_index v)] v).
  assert (H0 : I v0) by (by apply I_emit).
  assert (Ht0 : total_videos_processed v0 = total_videos_processed v) by done.
  pose proof (skip_loop_inv (length video_batch - i v0) video_batch details true v0 H0) as Hs.
  pose proof (skip_loop_counters (length video_batch - i v0) video_batch details true v0) as Hc.
  destruct (skip_loop _ _ _ _ _) as [d' a' v1 | v1 |]; [| done | done].
  destruct (length video_batch <=? i v1)%nat; [done |].
  assert (Ht1 : (total_videos_processed v1 < max_videos)%nat) by (simpl in *; lia).
  pose proof (I_step video_batch d' a' v1 Ht1 Hs) as He.
  destruct (match logged_in with Some uc => _ | None => _ end) as [[] v2]; try done.
  by apply IH.
Qed.

Lemma main_loop_inv queue v : I v → I (main_loop queue v).2.
Proof.
  revert v. induction queue as [| video_batch queue IH]; intros v Hv; simpl.
  { by destruct (_ && _). }
  destruct ((batch_count v <? max_batches)%nat && _) eqn:Hcond; [| done].
  apply andb_true_iff in Hcond as [Hb%Nat.ltb_lt _].
  destruct video_batch as [| d rest]; [by apply IH |].
  destruct (I_batch v Hb Hv) as [H1 H2].
  destruct (store_request_raises w (S (batch_count v))); [done |].
  match goal with |- context [inner_loop ?f ?b ?u] =>
    pose proof (inner_loop_inv f b u H2) as Hin;
    destruct (inner_loop f b u) as [[] v1]; try done; by apply IH end.
Qed.

End Invariant.

(** ** The whole run *)

Lemma browse_fyp_trace st : (browse_fyp st).2 = trace (try_block st).2.
Proof. unfold browse_fyp. by destruct (try_block st) as [[] v]. Qed.

Lemma try_block_inv (I : Vars → Prop) st :
  (∀ e v, is_screenshot e → I v → I (emit [e] v)) →
  (∀ v, I v → I (next_item v)) →
  (∀ video_batch details dom_article v,
     (total_videos_processed v < max_videos)%nat → I v →
     match
       match logged_in with
       | Some uc => engage uc video_batch details dom_article v
       | None => (Completed, v)
       end
     with
     | (Completed, v') =>
         I {| i := S (i v'); global_video_index := S (global_video_index v');
              batch_count := batch_count v';
              total_videos_processed := S (total_videos_processed v');
              store := store v'; trace := trace v' |}
     | (_, v') => I v'
     end) →
  (∀ v, (batch_count v < max_batches)%nat → I v →
     I {| i := i v; global_video_index := global_video_index v;
          batch_count := S (batch_count v);
          total_videos_processed := total_videos_processed v;
          store := store v; trace := trace v |} ∧
     I {| i := 0; global_video_index := global_video_index v;
          batch_count := S (batch_count v);
          total_videos_processed := total_videos_processed v;
          store := store v;
          trace := (trace v ++ [StoreBatch (S (batch_count v))])%list |}) →
  I (initial_vars st) → I (try_block st).2.
Proof.
  intros H1 H2 H3 H4 H0. unfold try_block.
  destruct (find_for_you w); try done.
  pose proof (main_loop_inv I H1 H2 H3 H4 (batches w) (initial_vars st) H0) as H.
  by destruct (main_loop (batches w) (initial_vars st)) as [[] v].
Qed.

(** X20.  A run of [browse_fyp] stores at most [max_batches] batches and
    watches at most [max_videos] videos. *)
Theorem browse_fyp_respects_limits (st : Follow.FollowState) :
  (length (stored_batches (browse_fyp st).2) ≤ max_batches)%nat ∧
  (length (watched (browse_fyp st).2) ≤ max_videos)%nat.
Proof.
  rewrite browse_fyp_trace.
  cut ((λ v, (length (stored_batches (trace v)) ≤ batch_count v)%nat ∧
             (batch_count v ≤ max_batches)%nat ∧
             (length (watched (trace v)) ≤ total_videos_processed v)%nat ∧
             (total_videos_processed v ≤ max_videos)%nat) (try_block st).2).
  { simpl. lia. }
  apply try_block_inv.
  - intros e v He (Hb1 & Hb2 & Hw1 & Hw2). unfold stored_batches, watched in *. simpl.
    rewrite !omap_app. destruct e; try done; csimpl; rewrite !app_nil_r; done.
  - by intros v.
  - intros video_batch details dom_article v Ht (Hb1 & Hb2 & Hw1 & Hw2).
    destruct logged_in as [uc |]; [| simpl; lia].
    destruct (engage_trace uc video_batch details dom_article v)
      as (ext & Htr & Hsb & Hw & Hnc & _).
    destruct (engage_counters uc video_batch details dom_article v) as [Hbc Htc].
    destruct (engage uc video_batch details dom_article v) as [e v'].
    simpl in *. rewrite Htr, Hbc, Htc. unfold stored_batches, watched in *.
    rewrite !omap_app, !length_app, Hsb. simpl.
    destruct e; try (rewrite Hnc by done; simpl; lia). lia.
  - intros v Hb (Hb1 & Hb2 & Hw1 & Hw2). unfold stored_batches, watched in *. simpl.
    rewrite !omap_app, !length_app. csimpl. lia.
  - simpl. lia.
Qed.

(** X21.  Without a login ([USE_LOGIN] off or no user configuration) a run
    only takes screenshots and stores batches: no like or follow click, no
    write of the followed-users file, no watch step and no interaction
    record; the followed-users store is left as it was. *)
Theorem run_without_login_never_engages (st : Follow.FollowState) :
  logged_in = None →
  Forall is_capture_effect (browse_fyp st).2 ∧ store (try_block st).2 = st.
Proof.
  intros Hlog. rewrite browse_fyp_trace.
  apply (try_block_inv (λ v, Forall is_capture_effect (trace v) ∧ store v = st)).
  - intros e v He [Ht Hs]. split; [| done]. simpl.
    apply Forall_app. split; [done |]. constructor; [by destruct e | done].
  - by intros v.
  - intros video_batch details dom_article v _ Hv. by rewrite Hlog.
  - intros v _ [Ht Hs]. repeat split; try done. simpl.
    apply Forall_app. split; [done |]. by repeat constructor.
  - by split.
Qed.

(** ** Runs that never block *)

Section NeverBlocked.
Hypothesis engage_not_blocked : ∀ uc video_batch details dom_article v,
  (engage uc video_batch details dom_article v).1 ≠ Blocked.

Lemma inner_loop_not_blocked fuel video_batch v :
  (inner_loop fuel video_batch v).1 ≠ Blocked.
Proof.
  revert v. induction fuel as [| fuel IH]; intros v; simpl.
  { by destruct (length video_batch <=? i v)%nat. }
  destruct (length video_batch <=? i v)%nat; [done |].
  destruct (max_videos <=? total_videos_processed v)%nat; [done |].
  destruct (video_batch !! i v) as [details |]; [| done].
  destruct (select w (global_video_index v)); try done.
  destruct (skip_loop _ _ _ _ _) as [d' a' v1 | v1 |]; [| done | done].
  destruct (length video_batch <=? i v1)%nat; [done |].
  destruct logged_in as [uc |]; [| apply IH].
  pose proof (engage_not_blocked uc video_batch d' a' v1) as He.
  destruct (engage uc video_batch d' a' v1) as [[] v2]; done.
Qed.

Lemma main_loop_not_blocked queue v : (main_loop queue v).1 ≠ Blocked.
Proof.
  revert v. induction queue as [| video_batch queue IH]; intros v; simpl.
  { by destruct (_ && _). }
  destruct (_ && _); [| done].
  destruct video_batch as [| d rest]; [apply IH |].
  destruct (store_request_raises w (S (batch_count v))); [done |].
  match goal with |- context [inner_loop ?f ?b ?u] =>
    pose proof (inner_loop_not_blocked f b u) as Hin;
    destruct (inner_loop f b u) as [[] v1]; try done; apply IH end.
Qed.

End NeverBlocked.

(** X22.  When no index is drawn for a random like, [browse_fyp] returns
    (it is never left waiting on a re-selection), and the run records no
    "like" interaction. *)
Theorem run_without_random_likes_returns (st : Follow.FollowState) :
  indices_to_random_like = [] →
  (∃ r, (browse_fyp st).1 = Returns r) ∧ liked_interactions (browse_fyp st).2 = [].
Proof.
  intros Hnone.
  assert (Hnin : ∀ k, k ∉ indices_to_random_like).
  { intros k. rewrite Hnone. apply not_elem_of_nil. }
  split.
  - pose proof (browse_fyp_total st) as Htot.
    unfold browse_fyp, try_block in *.
    destruct (find_for_you w); simpl; eauto.
    assert (Hnb : (main_loop (batches w) (initial_vars st)).1 ≠ Blocked).
    { apply main_loop_not_blocked. intros uc video_batch details dom_article v.
      destruct (engage_trace uc video_batch details dom_article v)
        as (ext & _ & _ & _ & _ & Hl).
      destruct (Hl (Hnin _)) as [-> _]. done. }
    destruct (main_loop (batches w) (initial_vars st)) as [[] v]; simpl in *; eauto; done.
  - rewrite browse_fyp_trace.
    apply (try_block_inv (λ v, liked_interactions (trace v) = [])).
    + intros e v He Hv. unfold liked_interactions in *. simpl.
      rewrite omap_app, Hv. by destruct e.
    + by intros v.
    + intros video_batch details dom_article v _ Hv.
      destruct logged_in as [uc |]; [| done].
      destruct (engage_trace uc video_batch details dom_article v)
        as (ext & Htr & _ & _ & _ & Hl).
      destruct (Hl (Hnin _)) as [_ Hlk].
      destruct (engage uc video_batch details dom_article v) as [e v'].
      simpl in *. unfold liked_interactions in *.
      destruct e; simpl; by rewrite Htr, omap_app, Hv, Hlk.
    + intros v _ Hv. unfold liked_interactions in *. simpl.
      by rewrite omap_app, Hv.
    + done.
Qed.

End Browse.

(** ** The watch-time clamp *)

Lemma clamp_watch_coefficient_cases config details cf tags rnd :
  clamp_watch_coefficient config details cf tags rnd = cf ∨
  (Py.le (duration details) 0 = false ∧
   clamp_watch_coefficient config details cf tags rnd =
     (current_max config tags rnd / duration details)%Q).
Proof.
  unfold clamp_watch_coefficient.
  destruct (Py.le (duration details) 0); [by left |].
  destruct (Py.gt _ _); [by right | by left].
Qed.

(** C1.  For a video of positive duration [d] and a coefficient [c], with
    [L] the ceiling of the item's category (the random-watch ceiling for the
    item selected for a random partial watch, else the hashtag ceiling for
    an item matching a watch-longer hashtag, else the baseline; the two
    special ceilings default to the baseline, the baseline to 120): the
    clamp returns [c] when [c * d <= L] and exactly [L / d] when
    [c * d > L]. *)
Theorem clamp_watch_coefficient_spec (config : Config) (details : VideoRecord)
    (c : Q) (has_watch_longer_tags is_random_watch : bool) :
  (0 < duration details)%Q →
  let d := duration details in
  let baseline := default 120%Q (MAX_WATCHTIME config) in
  let L :=
    if is_random_watch then default baseline (RANDOM_WATCH_MAXWATCHTIME config)
    else if has_watch_longer_tags
         then default baseline (HASHTAGS_WATCH_LONGER_MAXWATCHTIME config)
         else baseline in
  ((c * d <= L)%Q →
     clamp_watch_coefficient config details c has_watch_longer_tags is_random_watch = c) ∧
  ((L < c * d)%Q →
     clamp_watch_coefficient config details c has_watch_longer_tags is_random_watch
       = (L / d)%Q).
Proof.
  intros Hd d baseline L.
  assert (HL : current_max config has_watch_longer_tags is_random_watch = L) by done.
  assert (Hle : Py.le (duration details) 0 = false).
  { destruct (Py.le (duration details) 0) eqn:E; [| done].
    apply Py.le_spec in E. exfalso. by apply (Qlt_not_le 0 (duration details)). }
  unfold clamp_watch_coefficient. rewrite Hle, HL. fold d.
  split; intros H.
  - destruct (Py.gt (c * d) L) eqn:E; [| done].
    apply Py.gt_spec in E. exfalso. by apply (Qlt_not_le L (c * d)).
  - apply Py.gt_spec in H. by rewrite H.
Qed.

(** C10.  Clamping is idempotent: clamping an already clamped coefficient
    for the same item and category returns it unchanged. *)
Theorem clamp_watch_coefficient_idempotent (config : Config) (details : VideoRecord)
    (c : Q) (has_watch_longer_tags is_random_watch : bool) :
  clamp_watch_coefficient config details
    (clamp_watch_coefficient config details c has_watch_longer_tags is_random_watch)
    has_watch_longer_tags is_random_watch
  = clamp_watch_coefficient config details c has_watch_longer_tags is_random_watch.
Proof.
  destruct (clamp_watch_coefficient_cases config details c
              has_watch_longer_tags is_random_watch) as [H | [Hle H]].
  { by rewrite !H. }
  rewrite H. unfold clamp_watch_coefficient. rewrite Hle.
  by destruct (Py.gt _ _).
Qed.

(** ** [watch_video] *)

(** When the video carries a watch-longer hashtag, [watch_video] replaces
    the coefficient it was given. *)
Lemma watch_video_overrides_coefficient self coefficient :
  matches_watch_longer self = true →
  desired_watch_time self coefficient =
    (default (6 # 5) (HASHTAGS_WATCH_LONGER_COEFFICIENT (Interactor.user_config self))
     * duration (video_details self))%Q.
Proof. intros H. unfold desired_watch_time, watch_coefficient_used. by rewrite H. Qed.

(** The hashtag test of [browse_fyp] implies the one of [watch_video]: a
    video of the hashtag category always has its coefficient replaced. *)
Lemma has_watch_longer_tags_matches uc details k :
  Py.any (λ tag, Py.mem tag (Py.lower <$> hashtags details))
         (default [] (HASHTAGS_WATCH_LONGER uc)) = true →
  matches_watch_longer
    {| video_details := details; video_index := k; Interactor.user_config := uc |} = true.
Proof.
  unfold matches_watch_longer. simpl.
  rewrite !Py.any_spec. intros (tag & Htag & Hmem).
  apply Py.mem_spec, list_elem_of_fmap in Hmem as (h & -> & Hh).
  exists h. split; [done |]. apply Py.mem_spec, list_elem_of_fmap.
  exists (Py.lower h). split; [by rewrite Py.lower_idempotent | done].
Qed.

(** For a video of the hashtag category whose watch-longer coefficient
    times its duration exceeds the hashtag ceiling, the watch step runs
    with the unclamped coefficient: its intended watch time is above the
    ceiling whatever coefficient [browse_fyp] passes. *)
Lemma hashtag_category_watch_exceeds_ceiling config uc details k c cf :
  Py.any (λ tag, Py.mem tag (Py.lower <$> hashtags details))
         (default [] (HASHTAGS_WATCH_LONGER uc)) = true →
  HASHTAGS_WATCH_LONGER_COEFFICIENT uc = Some c →
  (hashtags_max_watchtime config < c * duration details)%Q →
  let self := {| video_details := details; video_index := k; Interactor.user_config := uc |} in
  desired_watch_time self cf = (c * duration details)%Q ∧
  (hashtags_max_watchtime config < desired_watch_time self cf)%Q.
Proof.
  intros Htags Hc Hlt self.
  assert (Hd : desired_watch_time self cf = (c * duration details)%Q).
  { unfold self. rewrite watch_video_overrides_coefficient
      by (by apply has_watch_longer_tags_matches). simpl. by rewrite Hc. }
  split; [done | by rewrite Hd].
Qed.

Lemma click_effect_is_no_watch tr k vid cf desired remaining :
  Forall is_click_effect tr → Watch k vid cf desired remaining ∉ tr.
Proof.
  intros Hall Hin. rewrite Forall_forall in Hall. by apply Hall in Hin.
Qed.

(** X23.  In the engagement step of [browse_fyp] for an item that is not
    drawn for a random like and carries no watch-longer hashtag,
    [watch_video] keeps the coefficient it is given: the watch step runs
    with the configured coefficient of the item's category (the random-watch
    coefficient when the item is drawn for a random watch, the plain one
    otherwise) as [clamp_watch_coefficient] returns it for that category,
    and its intended watch time is that coefficient times the duration. *)
Theorem plain_watch_uses_the_clamped_coefficient (config : Config)
    (user_config : option UserConfig) (max_videos : nat) (w : World)
    (uc : UserConfig) (video_batch : list VideoRecord) (details : VideoRecord)
    (dom_article : bool) (v : Vars) :
  let k := global_video_index v in
  let self :=
    {| video_details := details; video_index := k; Interactor.user_config := uc |} in
  let res := engage config user_config max_videos w uc video_batch details dom_article v in
  let is_random_watch :=
    bool_decide (k ∈ indices_to_random_watch config user_config max_videos w) in
  let configured :=
    if is_random_watch then default 1%Q (RANDOM_WATCH_COEFFICIENT uc)
    else default 1%Q (WATCH_COEFFICIENT_NO_HASHTAGS uc) in
  k ∉ indices_to_random_like config user_config max_videos w →
  matches_watch_longer self = false →
  ∀ k' vid cf desired remaining,
    Watch k' vid cf desired remaining ∈ trace res.2 →
    Watch k' vid cf desired remaining ∈ trace v ∨
    cf = clamp_watch_coefficient config details configured false is_random_watch ∧
    desired = (cf * duration details)%Q.
Proof.
  intros k self res is_random_watch configured Hnin Hm k' vid cf desired remaining.
  subst res configured is_random_watch k.
  assert (Htags : Py.any (λ tag, Py.mem tag (Py.lower <$> hashtags details))
                    (default [] (HASHTAGS_WATCH_LONGER uc)) = false).
  { destruct (Py.any _ _) eqn:E; [| done].
    apply (has_watch_longer_tags_matches uc details (global_video_index v)) in E.
    subst self. congruence. }
  assert (Hused : ∀ c, watch_coefficient_used self c = c).
  { intros c. unfold watch_coefficient_used. by rewrite Hm. }
  assert (Hdes : ∀ c, desired_watch_time self c = (c * duration details)%Q).
  { intros c. unfold desired_watch_time. by rewrite Hused. }
  assert (Hidem : ∀ c,
    clamp_watch_coefficient config details
      (clamp_watch_coefficient config details c false false) false false
    = clamp_watch_coefficient config details c false false).
  { intros c.
    destruct (clamp_watch_coefficient_cases config details c false false) as [H | [Hle H]].
    { by rewrite !H. }
    rewrite H. unfold clamp_watch_coefficient. rewrite Hle. by destruct (Py.gt _ _). }
  unfold engage.
  pose proof (handle_video_actions_effects self
    (like_click w (global_video_index v)) (follow_click w (global_video_index v))
    (followed_io w (global_video_index v)) (Follow.load_followed_users (store v))) as Hh.
  fold self.
  destruct (handle_video_actions _ _ _ _ _) as [st tr]. simpl in Hh.
  rewrite (bool_decide_eq_false_2 _ Hnin), Htags. simpl.
  pose proof (follow_user_effects self (follow_click w (global_video_index v))
                (followed_io w (global_video_index v)) st) as Hfu.
  destruct (Interactor.follow_user self _ _ st) as [st0 tr0]. simpl in Hfu.
  destruct (bool_decide (_ ∈ indices_to_random_watch _ _ _ _)),
           (bool_decide (_ ∈ indices_to_random_follow _ _ _ _));
    unfold watch_video, store_interaction;
    destruct (current_time w (global_video_index v)); simpl;
    rewrite ?app_nil_r, ?elem_of_app, ?elem_of_cons, ?elem_of_nil;
    intros Hin.
  all: repeat match goal with H : _ ∨ _ |- _ => destruct H as [H | H] end; try done.
  all: try (by left).
  all: try (exfalso; eapply click_effect_is_no_watch; [| exact Hin]; assumption).
  all: right; injection Hin as _ _ -> -> _.
  all: rewrite ?Hidem, Hdes, Hused; done.
Qed.


(** ** The result of [browse_fyp] *)

(** C8 (amended).  When the "For You" button is not found, [browse_fyp]
    returns [None] and does nothing else.  When the button is found and an
    exception is raised inside the main loop, or when looking for the
    button itself raises, the run ends there and [browse_fyp] returns the
    run identifier assigned before.  Whenever [browse_fyp] returns, it
    returns either the run identifier or, exactly when the button was not
    found, [None]. *)
Theorem browse_fyp_run_identifier (config : Config) (user_config : option UserConfig)
    (max_batches max_videos : nat) (testrunid : string) (w : World)
    (st : Follow.FollowState) :
  let run := browse_fyp config user_config max_batches max_videos testrunid w st in
  (find_for_you w = ButtonNotFound → run = (Returns None, [])) ∧
  (find_for_you w = FindRaises → run = (Returns (Some testrunid), [])) ∧
  (find_for_you w = ButtonFound →
   ∀ v, main_loop config user_config max_batches max_videos w (batches w) (initial_vars st)
          = (Raised, v) →
        run = (Returns (Some testrunid), trace v)) ∧
  (∀ r, run.1 = Returns r →
        r = Some testrunid ∧ find_for_you w ≠ ButtonNotFound ∨
        r = None ∧ find_for_you w = ButtonNotFound).
Proof.
  intros run. subst run. unfold browse_fyp, try_block.
  destruct (find_for_you w) eqn:Hf.
  - split; [done |]. split; [done |]. split.
    + intros _ v ->. done.
    + intros r.
      destruct (main_loop _ _ _ _ _ _ _) as [[] v]; simpl; intros Hr; simplify_eq; by left.
  - split; [done |]. split; [done |]. split; [done |].
    intros r Hr. simpl in Hr. simplify_eq. by right.
  - split; [done |]. split; [done |]. split; [done |].
    intros r Hr. simpl in Hr. simplify_eq. by left.
Qed.

End Fyp.

(* ===================================================================== *)
(** * A run of the pipeline on a three-item feed                          *)
(* ===================================================================== *)

Module Scenario.
Import Trace Normalizer Interactor Fyp.

(** Item A has duration 0, item B lasts 40 s and carries a like hashtag,
    item C lasts 200 s and carries a watch-longer hashtag. *)
Definition item_A : Item.t := sample_item "7001" "ann" 0 ["intro"].
Definition item_B : Item.t := sample_item "7002" "bob" 40 ["Cats"].
Definition item_C : Item.t := sample_item "7003" "cy" 200 ["fyp"].

Definition feed : list VideoRecord :=
  video_details_list (normalize sample_uuid4 ∅ 0 [item_A; item_B; item_C]).

Definition details_C : VideoRecord := build_details item_C "7003" false 200.

Definition scenario_config : Config :=
  {| USE_PROXY := false; USE_LOGIN := true;
     MAX_WATCHTIME := Some 120%Q;
     HASHTAGS_WATCH_LONGER_MAXWATCHTIME := Some 120%Q;
     RANDOM_WATCH_MAXWATCHTIME := None |}.

Definition profile : UserConfig :=
  {| HASHTAGS_TO_LIKE := Some ["cats"];
     HASHTAGS_TO_FOLLOW := Some [];
     USERNAMES_TO_LIKE := Some [];
     USERNAMES_TO_FOLLOW := Some [];
     RANDOM_POSTS_TO_LIKE := Some 0%nat;
     RANDOM_AUTHORS_TO_FOLLOW := Some 0%nat;
     RANDOM_VIDEOS_TO_WATCH := Some 0%nat;
     RANDOM_WATCH_COEFFICIENT := Some 1%Q;
     HASHTAGS_WATCH_LONGER := Some ["fyp"];
     HASHTAGS_WATCH_LONGER_COEFFICIENT := Some 3%Q;
     WATCH_COEFFICIENT_NO_HASHTAGS := Some 1%Q |}.

(** One random like, drawn on the first index. *)
Definition profile_random_like : UserConfig :=
  {| HASHTAGS_TO_LIKE := Some [];
     HASHTAGS_TO_FOLLOW := Some [];
     USERNAMES_TO_LIKE := Some [];
     USERNAMES_TO_FOLLOW := Some [];
     RANDOM_POSTS_TO_LIKE := Some 1%nat;
     RANDOM_AUTHORS_TO_FOLLOW := Some 0%nat;
     RANDOM_VIDEOS_TO_WATCH := Some 0%nat;
     RANDOM_WATCH_COEFFICIENT := Some 1%Q;
     HASHTAGS_WATCH_LONGER := Some [];
     HASHTAGS_WATCH_LONGER_COEFFICIENT := Some 1%Q;
     WATCH_COEFFICIENT_NO_HASHTAGS := Some 1%Q |}.

(** A browser that shows every article of the feed, answers every click,
    and delivers the one batch. *)
Definition world (button : FindResult) (select : nat → SelectResult) : World :=
  {| find_for_you := button;
     batches := [feed];
     shuffle := λ _, [0; 2; 1]%nat;
     Fyp.select := select;
     blocking_select := λ _, Blocks;
     detect_dom_livestream := λ _, false;
     store_request_raises := λ _, false;
     like_click := λ _, Clicked;
     follow_click := λ _, Clicked;
     followed_io := λ _, WriteOk;
     current_time := λ _, TimeValue 0 |}.

Definition all_articles (k : nat) : SelectResult :=
  if (k <? 3)%nat then Article else NoArticle.

Definition no_follows : Follow.FollowState :=
  {| Follow.followed_users := ∅; Follow.followed_file := None |}.

Lemma clamp_watch_coefficient_spec_witness :
  (0 < duration details_C)%Q ∧
  (3 * duration details_C <= 600)%Q ∧
  clamp_watch_coefficient scenario_config details_C 3 true false = (120 / 200)%Q.
Proof.
  assert (Hd : (0 < duration details_C)%Q) by reflexivity.
  split; [exact Hd |]. split; [by vm_compute |].
  apply (proj2 (clamp_watch_coefficient_spec scenario_config details_C 3 true false Hd)).
  reflexivity.
Defined.

(** C2.  Item C lasts 200 s and matches the watch-longer hashtag; the
    coefficient is 3 and the hashtag ceiling 120 s.  [browse_fyp] clamps the
    coefficient to 120/200, but [watch_video] replaces the coefficient it
    receives by the configured watch-longer coefficient: the watch step
    runs with coefficient 3 and an intended watch time of 600 s. *)
Theorem watch_longer_video_is_watched_past_the_ceiling :
  let v_interactor :=
    {| video_details := details_C; video_index := 2; Interactor.user_config := profile |} in
  feed !! 2%nat = Some details_C ∧
  hashtags_max_watchtime scenario_config = 120%Q ∧
  clamp_watch_coefficient scenario_config details_C 3 true false = (120 / 200)%Q ∧
  watch_video v_interactor (120 / 200) (TimeValue 0) = [Watch 2 "7003" 3 600 600] ∧
  browse_fyp scenario_config (Some profile) 10 10 "1" (world ButtonFound all_articles)
             no_follows
  = (Returns (Some "1"),
     [StoreBatch 1; Screenshot 0; SkipScreenshot 0; Screenshot 1; ClickLike 1 Clicked;
      Watch 1 "7002" 1 40 40; Screenshot 2; Watch 2 "7003" 3 600 600]).
Proof. vm_compute. repeat split; reflexivity. Qed.

(** C7.  The first index is drawn for a random like and item A at that index
    is skip-classified.  The skip loop moves on to item B before the draw is
    looked at, the draw is then tested against the index of item B, and no
    like is clicked or recorded although item B is neither skip- nor
    ad-classified. *)
Theorem random_like_drawn_on_skipped_item_is_lost :
  let w := world ButtonFound all_articles in
  indices_to_random_like scenario_config (Some profile_random_like) 10 w = [0%nat] ∧
  (skip_this <$> feed) = [true; false; false] ∧
  (isAd <$> feed) = [false; false; false] ∧
  browse_fyp scenario_config (Some profile_random_like) 10 10 "1" w no_follows
  = (Returns (Some "1"),
     [StoreBatch 1; Screenshot 0; SkipScreenshot 0; Screenshot 1;
      Watch 1 "7002" 1 40 40; Screenshot 2;
      Watch 2 "7003" (120 / 200) (120 / 200 * 200) (120 / 200 * 200 - 0)]).
Proof. vm_compute. repeat split; reflexivity. Qed.

(** C8 as stated fails: without the button the result is [None]. *)
Lemma button_not_found_returns_none :
  browse_fyp scenario_config (Some profile) 10 10 "1" (world ButtonNotFound all_articles)
             no_follows
  = (Returns None, []).
Proof. reflexivity. Qed.

Definition second_select_raises (k : nat) : SelectResult :=
  if (k <? 1)%nat then Article else SelectRaises.

Lemma browse_fyp_run_identifier_witness :
  let w := world ButtonFound second_select_raises in
  let v :=
    {| i := 1; global_video_index := 1; batch_count := 1; total_videos_processed := 0;
       store := no_follows; trace := [StoreBatch 1; Screenshot 0; SkipScreenshot 0] |} in
  find_for_you w = ButtonFound ∧
  main_loop scenario_config (Some profile) 10 10 w (batches w) (initial_vars no_follows)
    = (Raised, v) ∧
  browse_fyp scenario_config (Some profile) 10 10 "1" w no_follows
  = (Returns (Some "1"), [StoreBatch 1; Screenshot 0; SkipScreenshot 0]).
Proof.
  intros w v.
  assert (Hm : main_loop scenario_config (Some profile) 10 10 w (batches w)
                 (initial_vars no_follows) = (Raised, v)) by (vm_compute; reflexivity).
  split; [reflexivity |]. split; [exact Hm |].
  exact (proj1 (proj2 (proj2
    (browse_fyp_run_identifier scenario_config (Some profile) 10 10 "1" w no_follows)))
    eq_refl v Hm).
Defined.

(** ** A response whose body arrives at the third attempt *)

Definition body_on_third_attempt (attempt : nat) : Response.SendResult :=
  match attempt with
  | 0 | 1 => Response.RespEmpty
  | _ => Response.RespBody "item-list-body" false
  end.

Definition body_on_first_attempt (attempt : nat) : Response.SendResult :=
  Response.RespBody "item-list-body" false.

Definition parse_feed (body : string) (is_base64_encoded : bool) : Response.ParseResult :=
  Response.Parsed (Some [item_A; item_B; item_C]).

Definition empty_registry : Response.Registry :=
  {| Response.processed_video_ids := ∅; Response.uuid_calls := 0 |}.

(** Inside a run: [set_test_run_id] has set both globals, nothing is
    cancelled during the pause and the files can be written. *)
Definition run_env : Response.Env :=
  {| Response.test_run_id_set := true; Response.current_scenario_set := true;
     Response.sleep_cancelled := false; Response.makedirs_raises := false;
     Response.write_raises := false |}.

(** C6.  The browser answers the first two attempts with an empty result
    and the third with the body.  The second empty answer has set
    [attempt_failed], which a later success does not clear: the response is
    written to the quarantine after three attempts and its three videos are
    not enqueued.  The same body received at the first attempt is parsed
    and enqueued. *)
Theorem body_retrieved_at_third_attempt_is_quarantined :
  Response.handle_response sample_uuid4 parse_feed body_on_third_attempt true run_env
                           "req-1" empty_registry
  = (empty_registry,
     [Response.GetResponseBody "req-1" 0; Response.Sleep2;
      Response.GetResponseBody "req-1" 1; Response.GetResponseBody "req-1" 2;
      Response.WriteInvalidJson "req-1"],
     Response.Quarantined) ∧
  (Response.handle_response sample_uuid4 parse_feed body_on_first_attempt true run_env
                            "req-1" empty_registry).2
  = Response.Enqueued ∧
  Response.batches_in
    (Response.handle_response sample_uuid4 parse_feed body_on_first_attempt true run_env
                              "req-1" empty_registry).1.2
  = [feed].
Proof. vm_compute. repeat split; reflexivity. Qed.

Lemma empty_answer_after_first_attempt_quarantines_witness :
  body_on_third_attempt 1 = Response.RespEmpty ∧
  body_on_third_attempt 2 = Response.RespBody "item-list-body" false ∧
  (Response.handle_response sample_uuid4 parse_feed body_on_third_attempt true run_env
                            "req-1" empty_registry).2 = Response.Quarantined.
Proof.
  split; [reflexivity |]. split; [reflexivity |].
  refine (proj1 (Response.empty_answer_after_first_attempt_quarantines
                   sample_uuid4 parse_feed body_on_third_attempt true run_env
                   "req-1" empty_registry 1 _ eq_refl _ _ eq_refl eq_refl)).
  - lia.
  - intros c Hc. assert (c = 0%nat) as -> by lia. reflexivity.
  - intros c Hc. destruct c as [| [| c]]; [lia | lia | done].
Defined.

Lemma early_body_is_not_quarantined_witness :
  body_on_first_attempt 0 = Response.RespBody "item-list-body" false ∧
  (Response.handle_response sample_uuid4 parse_feed body_on_first_attempt true run_env
                            "req-1" empty_registry).2 ≠ Response.Quarantined.
Proof.
  split; [reflexivity |].
  exact (proj1 (Response.early_body_is_not_quarantined
                  sample_uuid4 parse_feed body_on_first_attempt true run_env
                  "req-1" empty_registry "item-list-body" false
                  (or_introl eq_refl) eq_refl)).
Defined.

(** ** Runs without a login and without random likes *)

Definition anonymous_config : Config :=
  {| USE_PROXY := false; USE_LOGIN := false;
     MAX_WATCHTIME := Some 120%Q;
     HASHTAGS_WATCH_LONGER_MAXWATCHTIME := Some 120%Q;
     RANDOM_WATCH_MAXWATCHTIME := None |}.

Lemma run_without_login_never_engages_witness :
  let w := world ButtonFound all_articles in
  logged_in anonymous_config (Some profile) = None ∧
  Forall is_capture_effect
    (browse_fyp anonymous_config (Some profile) 10 10 "1" w no_follows).2 ∧
  store (try_block anonymous_config (Some profile) 10 10 w no_follows).2 = no_follows.
Proof.
  intros w. split; [reflexivity |].
  apply (run_without_login_never_engages anonymous_config (Some profile) 10 10 "1" w
           no_follows).
  reflexivity.
Defined.

Lemma run_without_random_likes_returns_witness :
  let w := world ButtonFound all_articles in
  indices_to_random_like scenario_config (Some profile) 10 w = [] ∧
  (∃ r, (browse_fyp scenario_config (Some profile) 10 10 "1" w no_follows).1 = Returns r) ∧
  liked_interactions (browse_fyp scenario_config (Some profile) 10 10 "1" w no_follows).2
    = [].
Proof.
  intros w. split; [reflexivity |].
  apply (run_without_random_likes_returns scenario_config (Some profile) 10 10 "1" w
           no_follows).
  reflexivity.
Defined.

Definition details_B : VideoRecord := build_details item_B "7002" false 40.

Lemma plain_watch_uses_the_clamped_coefficient_witness :
  let w := world ButtonFound all_articles in
  let v :=
    {| i := 1; global_video_index := 1; batch_count := 1; total_videos_processed := 0;
       store := no_follows; trace := [] |} in
  let res := engage scenario_config (Some profile) 10 w profile feed details_B true v in
  feed !! 1%nat = Some details_B ∧
  Watch 1 "7002" 1 40 40 ∈ trace res.2 ∧
  (Watch 1 "7002" 1 40 40 ∈ trace v ∨
   1%Q = clamp_watch_coefficient scenario_config details_B 1 false false ∧
   40%Q = (1 * duration details_B)%Q).
Proof.
  intros w v res.
  assert (Hin : Watch 1 "7002" 1 40 40 ∈ trace res.2).
  { assert (Hres : trace res.2 = [ClickLike 1 Clicked; Watch 1 "7002" 1 40 40])
      by (vm_compute; reflexivity).
    rewrite Hres. by repeat constructor. }
  split; [vm_compute; reflexivity |]. split; [exact Hin |].
  apply (plain_watch_uses_the_clamped_coefficient scenario_config (Some profile) 10 w
           profile feed details_B true v); [| reflexivity | exact Hin].
  assert (Hnone : indices_to_random_like scenario_config (Some profile) 10 w = [])
    by reflexivity.
  rewrite Hnone. apply not_elem_of_nil.
Defined.

End Scenario.
